(** * Tonal-Audiometry: the playback sequencer of soundplayer.cpp

    A shallow embedding of [SoundPlayer] and [SingleFilePlayer].  The two
    classes are event handlers over Qt collaborators (a [QAudioOutput] sink, a
    single-shot [QTimer], [QIODevice] streams and the project's playlist
    iterator).  Every member function becomes a computation in a small
    state-and-fault monad: it threads the object's fields and the streams,
    appends every collaborator call and every emitted signal to a trace, and
    faults where the C++ dereferences a null pointer. *)

From Stdlib Require Import ZArith.
From stdpp Require Import strings gmap.

Local Open Scope Z_scope.

(** ** Values shared by both players *)

(** [qreal] with its addition; [qzero] is the literal [0] of [getSample]. *)
Class QReal := {
  qreal : Type;
  qadd : qreal -> qreal -> qreal;
  qzero : qreal
}.

(** [SoundSample::Direction]; [getSample] has a [default] arm for any value
    besides [Left] and [Right]. *)
Inductive Direction := Left | Right | OtherDirection.

(** [QAudio::State]; both [onStateChanged] slots have a [default] arm. *)
Inductive QAudioState :=
  ActiveState | SuspendedState | StoppedState | IdleState | InterruptedState.

#[global] Instance QAudioState_eq_dec : EqDecision QAudioState.
Proof. solve_decision. Defined.

(** A [QIODevice*] is [option QIODevice]: [None] is [nullptr], [Some d] points
    to the stream object [d]. *)
Definition QIODevice := nat.

Definition DIRECTION_ERROR : string := "Incorrect SoundSample::Direction".
Definition PLAYLIST_ERROR : string := "Playlist error".
Definition SOUND_SAMPLE_OPEN_ERROR : string := "Could not open a sound sample file".

Section Effects.
Context `{QReal}.

Record AudiogramData := {
  frequency : Z;
  volumeDb : qreal;
  volumePercent : qreal
}.

Inductive Signal :=
| errorString (msg : string)
| currentPlaylistElement (d : AudiogramData)
| stopPlaying
| aboutToPlayNextElement
| playlistEnded.

(** State-changing calls made on collaborators. *)
Inductive Call :=
| AudioSetVolume (v : qreal)
| AudioStart (d : QIODevice)
| AudioStop
| TimerSetInterval (ms : Z)
| TimerStart
| TimerStop
| IterNextLeft
| IterNextRight
| IterSkipCurrentSoundSet
| IterStop
| DeviceOpen (d : QIODevice).

Inductive Event := Emit (s : Signal) | Invoke (c : Call).

(** The streams and the observable trace.  [opened] holds the streams for
    which [isOpen()] is true, [openable] those whose [open(ReadOnly)]
    succeeds. *)
Record Env := {
  opened : gset QIODevice;
  openable : gset QIODevice;
  trace : list Event
}.

Definition record (ev : Event) (e : Env) : Env :=
  {| opened := opened e; openable := openable e; trace := trace e ++ [ev] |}.

Definition mark_open (d : QIODevice) (e : Env) : Env :=
  {| opened := {[d]} ∪ opened e; openable := openable e; trace := trace e |}.

(** ** The monad: object state [S], streams and trace, null dereference *)

Inductive Outcome (S A : Type) :=
| Ok (a : A) (s : S) (e : Env)
| NullDeref (s : S) (e : Env).
Arguments Ok {S A}.
Arguments NullDeref {S A}.

Definition M (S A : Type) := S -> Env -> Outcome S A.

Definition ret {S A} (a : A) : M S A := fun s e => Ok a s e.

Definition bind {S A B} (m : M S A) (k : A -> M S B) : M S B :=
  fun s e =>
    match m s e with
    | Ok a s' e' => k a s' e'
    | NullDeref s' e' => NullDeref s' e'
    end.

Definition get {S} : M S S := fun s e => Ok s s e.
Definition modify {S} (f : S -> S) : M S unit := fun s e => Ok tt (f s) e.

(** Where a computation ended, fault or not. *)
Definition final_state {S A} (o : Outcome S A) : S :=
  match o with Ok _ s _ => s | NullDeref s _ => s end.
Definition final_env {S A} (o : Outcome S A) : Env :=
  match o with Ok _ _ e => e | NullDeref _ e => e end.
Definition faulted {S A} (o : Outcome S A) : bool :=
  match o with Ok _ _ _ => false | NullDeref _ _ => true end.

(** Counting in a trace: calls of the sink's [start], any call on the sink,
    and emissions of [errorString] with a given message. *)
Definition is_start (ev : Event) : bool :=
  match ev with Invoke (AudioStart _) => true | _ => false end.
Definition is_sink_call (ev : Event) : bool :=
  match ev with
  | Invoke (AudioSetVolume _) | Invoke (AudioStart _) | Invoke AudioStop => true
  | _ => false
  end.
Definition is_error (msg : string) (ev : Event) : bool :=
  match ev with Emit (errorString m) => String.eqb m msg | _ => false end.
Fixpoint count (p : Event -> bool) (tr : list Event) : nat :=
  match tr with
  | [] => 0%nat
  | ev :: tr' => ((if p ev then 1 else 0) + count p tr')%nat
  end.

(** The events a computation appends to the trace. *)
Definition new_events {S A} (m : M S A) (s : S) (e : Env) : list Event :=
  drop (length (trace e)) (trace (final_env (m s e))).

(** [P] is an invariant of [m]: it holds where [m] ends, fault or not, when
    it held where [m] began. *)
Definition invariant {S A} (P : S -> Prop) (m : M S A) : Prop :=
  forall s e, P s -> P (final_state (m s e)).

(** [p->...] on a pointer that may be null. *)
Definition deref {S A} (p : option A) : M S A :=
  fun s e => match p with Some a => Ok a s e | None => NullDeref s e end.

Definition emit {S} (sig : Signal) : M S unit :=
  fun s e => Ok tt s (record (Emit sig) e).

Definition invoke {S} (c : Call) : M S unit :=
  fun s e => Ok tt s (record (Invoke c) e).

(** [device->isOpen()] *)
Definition isOpen {S} (d : QIODevice) : M S bool :=
  fun s e => Ok (bool_decide (d ∈ opened e)) s e.

(** [device->open(QIODevice::ReadOnly)] *)
Definition open_ReadOnly {S} (d : QIODevice) : M S bool :=
  fun s e =>
    let e' := record (Invoke (DeviceOpen d)) e in
    if bool_decide (d ∈ openable e) then Ok true s (mark_open d e')
    else Ok false s e'.

(** ** QAudioOutput and QTimer *)

Record QAudioOutput := {
  state : QAudioState;
  volume : qreal;
  source : option QIODevice
}.

(** [volume] holds the value last passed to [setVolume], as it was passed.
    A real sink limits the volume it reports back to the range from 0 to 1;
    the record keeps the argument and does not apply that limit. *)
Definition QAudioOutput_setVolume (v : qreal) (a : QAudioOutput) : QAudioOutput :=
  {| state := state a; volume := v; source := source a |}.

Definition QAudioOutput_start (d : QIODevice) (a : QAudioOutput) : QAudioOutput :=
  {| state := ActiveState; volume := volume a; source := Some d |}.

Definition QAudioOutput_setState (st : QAudioState) (a : QAudioOutput) : QAudioOutput :=
  {| state := st; volume := volume a; source := source a |}.

(** [stop()] on a sink that is not stopped moves it to [StoppedState] and
    raises [stateChanged(StoppedState)]; the second component says whether
    the signal was raised.  Both constructors (lines 27 and 212) connect
    [stateChanged] to their [onStateChanged] slot without a connection type,
    and the sink is a child of the player, in the player's thread: the
    connection is direct, the slot runs inside [stop()], before the statement
    that follows the call. *)
Definition QAudioOutput_stop (a : QAudioOutput) : QAudioOutput * bool :=
  if decide (state a = StoppedState) then (a, false)
  else (QAudioOutput_setState StoppedState a, true).

(** The timer is made single-shot by the constructor and stays so. *)
Record QTimer := {
  interval : Z;
  active : bool
}.

Definition QTimer_setInterval (ms : Z) (t : QTimer) : QTimer :=
  {| interval := ms; active := active t |}.
Definition QTimer_start (t : QTimer) : QTimer :=
  {| interval := interval t; active := true |}.
Definition QTimer_stop (t : QTimer) : QTimer :=
  {| interval := interval t; active := false |}.
(** A single-shot timer is inactive once it has fired. *)
Definition QTimer_expire (t : QTimer) : QTimer :=
  {| interval := interval t; active := false |}.

(** [R] relates the streams and trace before [m] to those where [m] ends. *)
Definition env_relates {S A} (R : Env -> Env -> Prop) (m : M S A) : Prop :=
  forall s e, R e (final_env (m s e)).

(** No stream has been closed and none has changed its ability to open. *)
Definition streams_kept (e e' : Env) : Prop :=
  opened e ⊆ opened e' /\ openable e' = openable e.

(** The trace has only grown, by events that satisfy [P]. *)
Definition appends (P : Event -> Prop) (e e' : Env) : Prop :=
  exists evs, trace e' = trace e ++ evs /\ Forall P evs.

(** An event that is not an [errorString], or one with a message the
    handlers pass to [errorString]. *)
Definition known_error (ev : Event) : Prop :=
  match ev with
  | Emit (errorString m) => m = PLAYLIST_ERROR \/ m = SOUND_SAMPLE_OPEN_ERROR
  | _ => True
  end.

(** A call on the gap timer. *)
Definition is_timer_call (ev : Event) : bool :=
  match ev with
  | Invoke (TimerSetInterval _) | Invoke TimerStart | Invoke TimerStop => true
  | _ => false
  end.

(** A call of the sink's [setVolume]. *)
Definition is_setVolume (ev : Event) : bool :=
  match ev with Invoke (AudioSetVolume _) => true | _ => false end.

(** A call of the sink's [stop]. *)
Definition is_stop (ev : Event) : bool :=
  match ev with Invoke AudioStop => true | _ => false end.

(** [m] run [n] times in a row. *)
Fixpoint repeat_m {S} (n : nat) (m : M S unit) : M S unit :=
  match n with
  | O => ret tt
  | Datatypes.S n' => bind m (fun _ => repeat_m n' m)
  end.

End Effects.

Arguments Ok {_ S A}.
Arguments NullDeref {_ S A}.

Declare Scope monad_scope.
Delimit Scope monad_scope with monad.
Notation "x <- m ;; k" := (bind m (fun x => k))
  (at level 100, m at next level, right associativity) : monad_scope.
Notation "m ;; k" := (bind m (fun _ => k))
  (at level 100, right associativity) : monad_scope.

(** ** The playlist collaborators (declared outside soundplayer.cpp)

    [PlaylistIter] is an abstract class; the sequencer only uses the member
    functions below.  [nextLeft] and [nextRight] return the [QPair] and the
    advanced iterator. *)
Module PlaylistIter.
Class Interface `{QReal} (I : Type) := {
  hasNext : I -> bool;
  nextLeft : I -> (option QIODevice * qreal) * I;
  nextRight : I -> (option QIODevice * qreal) * I;
  getCurrentFrequency : I -> Z;
  getCurrentVolumeDb : I -> qreal;
  getCurrentVolumePercent : I -> qreal;
  skipCurrentSoundSet : I -> I;
  stop : I -> I
}.
End PlaylistIter.

(** [Playlist::iterator()] hands out an iterator positioned at the beginning. *)
Record Playlist (I : Type) := { iterator : I }.
Arguments iterator {I}.

(** * SoundPlayer *)
Module SoundPlayer.
Section WithIterator.
Context `{QReal} {I : Type} `{!PlaylistIter.Interface I}.
Local Open Scope monad_scope.

(** The data members.  [playlist] is a raw pointer and [playlistIter] a
    smart pointer that [resetPlaylist] empties: both may be null. *)
Record t := {
  audioDevice : QAudioOutput;
  timeGapTimer : QTimer;
  noSoundTimeSpanMs : Z;
  playlist : option (Playlist I);
  playlistIter : option I;
  currentChannel : Direction;
  volumeAdjust : qreal
}.

Definition with_audioDevice (f : QAudioOutput -> QAudioOutput) (sp : t) : t :=
  {| audioDevice := f (audioDevice sp); timeGapTimer := timeGapTimer sp;
     noSoundTimeSpanMs := noSoundTimeSpanMs sp; playlist := playlist sp;
     playlistIter := playlistIter sp; currentChannel := currentChannel sp;
     volumeAdjust := volumeAdjust sp |}.

Definition with_timeGapTimer (f : QTimer -> QTimer) (sp : t) : t :=
  {| audioDevice := audioDevice sp; timeGapTimer := f (timeGapTimer sp);
     noSoundTimeSpanMs := noSoundTimeSpanMs sp; playlist := playlist sp;
     playlistIter := playlistIter sp; currentChannel := currentChannel sp;
     volumeAdjust := volumeAdjust sp |}.

Definition with_noSoundTimeSpanMs (ms : Z) (sp : t) : t :=
  {| audioDevice := audioDevice sp; timeGapTimer := timeGapTimer sp;
     noSoundTimeSpanMs := ms; playlist := playlist sp;
     playlistIter := playlistIter sp; currentChannel := currentChannel sp;
     volumeAdjust := volumeAdjust sp |}.

Definition with_playlist (p : option (Playlist I)) (sp : t) : t :=
  {| audioDevice := audioDevice sp; timeGapTimer := timeGapTimer sp;
     noSoundTimeSpanMs := noSoundTimeSpanMs sp; playlist := p;
     playlistIter := playlistIter sp; currentChannel := currentChannel sp;
     volumeAdjust := volumeAdjust sp |}.

Definition with_playlistIter (it : option I) (sp : t) : t :=
  {| audioDevice := audioDevice sp; timeGapTimer := timeGapTimer sp;
     noSoundTimeSpanMs := noSoundTimeSpanMs sp; playlist := playlist sp;
     playlistIter := it; currentChannel := currentChannel sp;
     volumeAdjust := volumeAdjust sp |}.

Definition with_currentChannel (c : Direction) (sp : t) : t :=
  {| audioDevice := audioDevice sp; timeGapTimer := timeGapTimer sp;
     noSoundTimeSpanMs := noSoundTimeSpanMs sp; playlist := playlist sp;
     playlistIter := playlistIter sp; currentChannel := c;
     volumeAdjust := volumeAdjust sp |}.

Definition with_volumeAdjust (v : qreal) (sp : t) : t :=
  {| audioDevice := audioDevice sp; timeGapTimer := timeGapTimer sp;
     noSoundTimeSpanMs := noSoundTimeSpanMs sp; playlist := playlist sp;
     playlistIter := playlistIter sp; currentChannel := currentChannel sp;
     volumeAdjust := v |}.

(** *** Calls on the owned timer *)

Definition timeGapTimer_setInterval (ms : Z) : M t unit :=
  invoke (TimerSetInterval ms) ;; modify (with_timeGapTimer (QTimer_setInterval ms)).
Definition timeGapTimer_start : M t unit :=
  invoke TimerStart ;; modify (with_timeGapTimer QTimer_start).
Definition timeGapTimer_stop : M t unit :=
  invoke TimerStop ;; modify (with_timeGapTimer QTimer_stop).

(** *** Calls on the owned sink *)

Definition audioDevice_setVolume (v : qreal) : M t unit :=
  invoke (AudioSetVolume v) ;; modify (with_audioDevice (QAudioOutput_setVolume v)).
Definition audioDevice_start (d : QIODevice) : M t unit :=
  invoke (AudioStart d) ;; modify (with_audioDevice (QAudioOutput_start d)).

(** The [StoppedState] arm of [onStateChanged] (lines 138-140), named so
    that [audioDevice_stop] can run it as the connected slot. *)
Definition onStoppedState : M t unit := timeGapTimer_start.

Definition audioDevice_stop : M t unit :=
  invoke AudioStop ;;
  sp <- get ;;
  let (a, raised) := QAudioOutput_stop (audioDevice sp) in
  modify (with_audioDevice (fun _ => a)) ;;
  if raised then onStoppedState else ret tt.

(** *** Member functions, in the order of the source *)

Definition getNoSoundTimeSpanMs : M t Z :=
  sp <- get ;; ret (noSoundTimeSpanMs sp).

Definition setNoSoundTimeSpanMs (miliseconds : Z) : M t unit :=
  modify (with_noSoundTimeSpanMs miliseconds) ;;
  sp <- get ;;
  timeGapTimer_setInterval (noSoundTimeSpanMs sp).

Definition setPlaylist (p : option (Playlist I)) : M t unit :=
  modify (with_playlist p).

Definition resetPlaylist : M t unit :=
  modify (with_playlistIter None).

Definition skipCurrentSoundSet : M t unit :=
  sp <- get ;;
  it <- deref (playlistIter sp) ;;
  invoke IterSkipCurrentSoundSet ;;
  modify (with_playlistIter (Some (PlaylistIter.skipCurrentSoundSet it))).

Definition setCorrectionAdjustVolume (percent : qreal) : M t unit :=
  modify (with_volumeAdjust percent).

Definition stopPlaylist : M t unit :=
  audioDevice_stop ;;
  timeGapTimer_stop ;;
  sp <- get ;;
  it <- deref (playlistIter sp) ;;
  invoke IterStop ;;
  modify (with_playlistIter (Some (PlaylistIter.stop it))).

Definition onStateChanged (st : QAudioState) : M t unit :=
  match st with
  | ActiveState =>
      sp <- get ;;
      it <- deref (playlistIter sp) ;;
      emit (currentPlaylistElement
              {| frequency := PlaylistIter.getCurrentFrequency it;
                 volumeDb := PlaylistIter.getCurrentVolumeDb it;
                 volumePercent := PlaylistIter.getCurrentVolumePercent it |})
  | SuspendedState => ret tt
  | StoppedState => onStoppedState
  | IdleState => audioDevice_stop ;; emit stopPlaying
  | InterruptedState => ret tt
  end.

Definition getSample : M t (option QIODevice * qreal) :=
  sp <- get ;;
  match currentChannel sp with
  | Left =>
      it <- deref (playlistIter sp) ;;
      invoke IterNextLeft ;;
      let (sample, it') := PlaylistIter.nextLeft it in
      modify (with_playlistIter (Some it')) ;;
      ret sample
  | Right =>
      it <- deref (playlistIter sp) ;;
      invoke IterNextRight ;;
      let (sample, it') := PlaylistIter.nextRight it in
      modify (with_playlistIter (Some it')) ;;
      ret sample
  | OtherDirection => ret (None, qzero)
  end.

(** The accessor [getSample] selects for a channel: its result, the advanced
    iterator and the call that is made; none for an unrecognised channel. *)
Definition fetch (ch : Direction) (it : I)
  : option ((option QIODevice * qreal) * I * Call) :=
  match ch with
  | Left => Some (PlaylistIter.nextLeft it, IterNextLeft)
  | Right => Some (PlaylistIter.nextRight it, IterNextRight)
  | OtherDirection => None
  end.

Definition setAudioDevice (device : option QIODevice) (volume : qreal) : M t unit :=
  sp <- get ;;
  audioDevice_setVolume (qadd volume (volumeAdjust sp)) ;;
  d <- deref device ;;
  isopen <- isOpen d ;;
  if negb isopen then
    opened_now <- open_ReadOnly d ;;
    if opened_now then audioDevice_start d
    else emit (errorString SOUND_SAMPLE_OPEN_ERROR)
  else audioDevice_start d.

Definition playPlaylist (channel : Direction) : M t unit :=
  resetPlaylist ;;
  sp <- get ;;
  pl <- deref (playlist sp) ;;
  modify (with_playlistIter (Some (iterator pl))) ;;
  modify (with_currentChannel channel) ;;
  sp <- get ;;
  it <- deref (playlistIter sp) ;;
  if PlaylistIter.hasNext it then
    sample <- getSample ;;
    setAudioDevice (fst sample) (snd sample)
  else emit (errorString PLAYLIST_ERROR).

Definition playNextSample : M t unit :=
  emit aboutToPlayNextElement ;;
  sp <- get ;;
  it <- deref (playlistIter sp) ;;
  if PlaylistIter.hasNext it then
    sample <- getSample ;;
    setAudioDevice (fst sample) (snd sample)
  else emit playlistEnded.

(** A playlist run has been started: the iterator handle is set. *)
Definition has_iterator (sp : t) : Prop := is_Some (playlistIter sp).

(** *** The event loop around the sequencer *)

(** What reaches the two slots without a call from the sequencer: the gap
    timer fires, or the sink reports a state. *)
Inductive Stimulus :=
| Timeout
| StateChanged (st : QAudioState).

(** The timer fires only while it is active.  A stopped sink reports nothing
    until it is started again; a sink that is not stopped may report any
    state (more than a real sink does: what holds for every enabled stimulus
    holds for the real ones). *)
Definition enabled (stim : Stimulus) (sp : t) : bool :=
  match stim with
  | Timeout => active (timeGapTimer sp)
  | StateChanged _ => negb (bool_decide (state (audioDevice sp) = StoppedState))
  end.

Definition deliver (stim : Stimulus) : M t unit :=
  match stim with
  | Timeout =>
      modify (with_timeGapTimer QTimer_expire) ;; playNextSample
  | StateChanged st =>
      modify (with_audioDevice (QAudioOutput_setState st)) ;; onStateChanged st
  end.

(** The public operations and the deliveries, as one alphabet. *)
Inductive Command :=
| SetNoSoundTimeSpanMs (miliseconds : Z)
| SetPlaylist (p : option (Playlist I))
| PlayPlaylist (channel : Direction)
| SkipCurrentSoundSet
| SetCorrectionAdjustVolume (percent : qreal)
| StopPlaylist
| Deliver (stim : Stimulus).

Definition exec (c : Command) : M t unit :=
  match c with
  | SetNoSoundTimeSpanMs ms => setNoSoundTimeSpanMs ms
  | SetPlaylist p => setPlaylist p
  | PlayPlaylist ch => playPlaylist ch
  | SkipCurrentSoundSet => skipCurrentSoundSet
  | SetCorrectionAdjustVolume o => setCorrectionAdjustVolume o
  | StopPlaylist => stopPlaylist
  | Deliver stim => deliver stim
  end.

Fixpoint run (cs : list Command) : M t unit :=
  match cs with
  | [] => ret tt
  | c :: cs' => exec c ;; run cs'
  end.

Definition adjusts_volume (c : Command) : bool :=
  match c with SetCorrectionAdjustVolume _ => true | _ => false end.

(** Whether the event loop can deliver the stimuli one after the other. *)
Fixpoint deliverable (stims : list Stimulus) (sp : t) (e : Env) : bool :=
  match stims with
  | [] => true
  | stim :: rest =>
      enabled stim sp &&
      match deliver stim sp e with
      | Ok _ sp' e' => deliverable rest sp' e'
      | NullDeref _ _ => false
      end
  end.

(** The constructor (lines 18-28): a new sink, which is stopped and plays
    nothing, and a new timer, inactive, whose interval is set to
    [noSoundTimeSpanMs] and which is made single-shot.  The members the
    constructor does not mention get the values of the class declaration,
    which are the parameters here, as is the volume of a new sink. *)
Definition construct (noSoundTimeSpanMs0 : Z) (playlist0 : option (Playlist I))
    (playlistIter0 : option I) (currentChannel0 : Direction)
    (volumeAdjust0 sinkVolume0 : qreal) (e : Env) : t * Env :=
  ({| audioDevice := {| state := StoppedState; volume := sinkVolume0; source := None |};
      timeGapTimer := {| interval := noSoundTimeSpanMs0; active := false |};
      noSoundTimeSpanMs := noSoundTimeSpanMs0;
      playlist := playlist0;
      playlistIter := playlistIter0;
      currentChannel := currentChannel0;
      volumeAdjust := volumeAdjust0 |},
   record (Invoke (TimerSetInterval noSoundTimeSpanMs0)) e).

(** The commands whose code calls the gap timer: [setNoSoundTimeSpanMs],
    [stopPlaylist], and the deliveries that run the [StoppedState] arm (the
    timer's own expiry apart, which makes it inactive). *)
Definition touches_timer (c : Command) : bool :=
  match c with
  | SetNoSoundTimeSpanMs _ | StopPlaylist => true
  | Deliver Timeout => true
  | Deliver (StateChanged StoppedState) | Deliver (StateChanged IdleState) => true
  | _ => false
  end.

(** The commands whose code calls the sink or through which the sink reports
    a state of its own. *)
Definition involves_sink (c : Command) : bool :=
  match c with
  | PlayPlaylist _ | StopPlaylist | Deliver _ => true
  | _ => false
  end.

End WithIterator.
Arguments t {_} I.
Arguments Command {_} I.
End SoundPlayer.

(** * SingleFilePlayer *)

(** [FileSound] (filesound.h): the url of the left channel and the stream of
    each channel. *)
Record FileSound := {
  getLeftSoundUrl : string;
  getSound : Direction -> option QIODevice
}.

Module SingleFilePlayer.
Section WithSink.
Context `{QReal}.
Local Open Scope monad_scope.

Record t := {
  audioDevice : QAudioOutput;
  file : option FileSound
}.

Definition with_audioDevice (f : QAudioOutput -> QAudioOutput) (p : t) : t :=
  {| audioDevice := f (audioDevice p); file := file p |}.
Definition with_file (f : option FileSound) (p : t) : t :=
  {| audioDevice := audioDevice p; file := f |}.

Definition audioDevice_setVolume (v : qreal) : M t unit :=
  invoke (AudioSetVolume v) ;; modify (with_audioDevice (QAudioOutput_setVolume v)).
Definition audioDevice_start (d : QIODevice) : M t unit :=
  invoke (AudioStart d) ;; modify (with_audioDevice (QAudioOutput_start d)).

(** The [StoppedState] arm of [onStateChanged] (lines 278-279). *)
Definition onStoppedState : M t unit := ret tt.

Definition audioDevice_stop : M t unit :=
  invoke AudioStop ;;
  p <- get ;;
  let (a, raised) := QAudioOutput_stop (audioDevice p) in
  modify (with_audioDevice (fun _ => a)) ;;
  if raised then onStoppedState else ret tt.

Definition getFileSound : M t (option FileSound) :=
  p <- get ;; ret (file p).

Definition isEmpty (s : string) : bool := bool_decide (s = EmptyString).

Definition setFileSound (value : option FileSound) : M t unit :=
  v <- deref value ;;
  let leftChannel := getLeftSoundUrl v in
  if negb (isEmpty leftChannel) then modify (with_file value) else ret tt.

Definition setVolume (volume : qreal) : M t unit :=
  audioDevice_setVolume volume.

Definition getVolume : M t qreal :=
  p <- get ;; ret (volume (audioDevice p)).

Definition stop : M t unit := audioDevice_stop.

Definition setAudioDevice (device : option QIODevice) : M t unit :=
  d <- deref device ;;
  isopen <- isOpen d ;;
  if negb isopen then
    opened_now <- open_ReadOnly d ;;
    if opened_now then audioDevice_start d
    else emit (errorString SOUND_SAMPLE_OPEN_ERROR)
  else audioDevice_start d.

Definition start : M t unit :=
  p <- get ;;
  match file p with
  | Some f =>
      let calibrationSample := getSound f Left in
      setAudioDevice calibrationSample
  | None => ret tt
  end.

Definition onStateChanged (st : QAudioState) : M t unit :=
  match st with
  | ActiveState => ret tt
  | SuspendedState => ret tt
  | StoppedState => onStoppedState
  | IdleState =>
      p <- get ;;
      f <- deref (file p) ;;
      setAudioDevice (getSound f Left)
  | InterruptedState => ret tt
  end.

(** The constructor (lines 207-213): a new sink, stopped; [file] has the
    value of the class declaration. *)
Definition construct (file0 : option FileSound) (sinkVolume0 : qreal) : t :=
  {| audioDevice := {| state := StoppedState; volume := sinkVolume0; source := None |};
     file := file0 |}.

(** The destructor (lines 215-219) stops the sink before deleting it. *)
Definition destruct_player : M t unit := audioDevice_stop.

(** *** The event loop around the player *)

(** A stopped sink reports nothing until it is started again; a sink that is
    not stopped may report any state. *)
Definition enabled (p : t) : bool :=
  negb (bool_decide (state (audioDevice p) = StoppedState)).

Definition deliver (st : QAudioState) : M t unit :=
  modify (with_audioDevice (QAudioOutput_setState st)) ;; onStateChanged st.

Inductive Command :=
| SetFileSound (value : option FileSound)
| SetVolume (volume : qreal)
| Start
| Stop
| Deliver (st : QAudioState).

Definition exec (c : Command) : M t unit :=
  match c with
  | SetFileSound v => setFileSound v
  | SetVolume v => setVolume v
  | Start => start
  | Stop => stop
  | Deliver st => deliver st
  end.

Fixpoint run (cs : list Command) : M t unit :=
  match cs with
  | [] => ret tt
  | c :: cs' => exec c ;; run cs'
  end.

(** A command the event loop can run now: a delivery needs a sink that is
    not stopped. *)
Definition admissible (c : Command) (p : t) : bool :=
  match c with
  | Deliver _ => enabled p
  | _ => true
  end.

(** Whether the commands can be run one after the other without a fault. *)
Fixpoint admissible_run (cs : list Command) (p : t) (e : Env) : bool :=
  match cs with
  | [] => true
  | c :: rest =>
      admissible c p &&
      match exec c p e with
      | Ok _ p' e' => admissible_run rest p' e'
      | NullDeref _ _ => false
      end
  end.

Definition sets_volume (c : Command) : bool :=
  match c with SetVolume _ => true | _ => false end.


(** The file, when there is one, has a left channel. *)
Definition file_has_left (p : t) : Prop :=
  match file p with
  | Some f => getLeftSoundUrl f <> EmptyString
  | None => True
  end.

(** A sink that was started was started from a file. *)
Definition started_from_file (p : t) : Prop :=
  state (audioDevice p) <> StoppedState -> is_Some (file p).

End WithSink.
End SingleFilePlayer.

(** * Concrete collaborators for the closed examples

    Volumes as integer percentages, and an iterator that plays a list of
    entries front to back. *)
Module Sample.

#[export] Instance PercentReal : QReal :=
  {| qreal := Z; qadd := Z.add; qzero := 0 |}.

Record Entry := {
  leftStream : option QIODevice;
  rightStream : option QIODevice;
  entryFrequency : Z;
  entryDb : Z;
  entryPercent : Z
}.

Record ListIter := {
  pending : list Entry;
  current : option Entry
}.

Definition advance (pick : Entry -> option QIODevice) (it : ListIter)
  : (option QIODevice * Z) * ListIter :=
  match pending it with
  | [] => ((None, 0), it)
  | x :: rest => ((pick x, entryPercent x), {| pending := rest; current := Some x |})
  end.

Definition current_or_zero (f : Entry -> Z) (it : ListIter) : Z :=
  match current it with Some x => f x | None => 0 end.

#[export] Instance ListIter_Interface : PlaylistIter.Interface ListIter := {|
  PlaylistIter.hasNext it := match pending it with [] => false | _ => true end;
  PlaylistIter.nextLeft := advance leftStream;
  PlaylistIter.nextRight := advance rightStream;
  PlaylistIter.getCurrentFrequency := current_or_zero entryFrequency;
  PlaylistIter.getCurrentVolumeDb := current_or_zero entryDb;
  PlaylistIter.getCurrentVolumePercent := current_or_zero entryPercent;
  PlaylistIter.skipCurrentSoundSet it :=
    {| pending := tail (pending it); current := current it |};
  PlaylistIter.stop it := {| pending := []; current := current it |}
|}.

Definition tone1000 : Entry :=
  {| leftStream := Some 1%nat; rightStream := Some 2%nat;
     entryFrequency := 1000; entryDb := 20; entryPercent := 40 |}.
Definition tone2000 : Entry :=
  {| leftStream := Some 3%nat; rightStream := Some 4%nat;
     entryFrequency := 2000; entryDb := 30; entryPercent := 55 |}.

Definition fresh (l : list Entry) : ListIter := {| pending := l; current := None |}.

Definition silent_sink : QAudioOutput :=
  {| state := StoppedState; volume := 100; source := None |}.
Definition playing_sink : QAudioOutput :=
  {| state := ActiveState; volume := 45; source := Some 1%nat |}.
Definition gap_timer : QTimer := {| interval := 1000; active := false |}.

(** Streams 1 to 4 can be opened, none is open yet, nothing has happened. *)
Definition env0 : Env :=
  {| opened := ∅; openable := {[1%nat; 2%nat; 3%nat; 4%nat]}; trace := [] |}.
(** No stream can be opened. *)
Definition env_locked : Env :=
  {| opened := ∅; openable := ∅; trace := [] |}.
(** Stream 1 is already open. *)
Definition env_open1 : Env :=
  {| opened := {[1%nat]}; openable := {[1%nat]}; trace := [] |}.

(** A sequencer that has not played yet. *)
Definition idle_player (l : list Entry) (ch : Direction) : SoundPlayer.t ListIter :=
  {| SoundPlayer.audioDevice := silent_sink;
     SoundPlayer.timeGapTimer := gap_timer;
     SoundPlayer.noSoundTimeSpanMs := 1000;
     SoundPlayer.playlist := Some {| iterator := fresh l |};
     SoundPlayer.playlistIter := None;
     SoundPlayer.currentChannel := ch;
     SoundPlayer.volumeAdjust := 5 |}.

(** A sequencer in the middle of a run: the first entry is sounding. *)
Definition running_player (ch : Direction) : SoundPlayer.t ListIter :=
  {| SoundPlayer.audioDevice := playing_sink;
     SoundPlayer.timeGapTimer := gap_timer;
     SoundPlayer.noSoundTimeSpanMs := 1000;
     SoundPlayer.playlist := Some {| iterator := fresh [tone1000; tone2000] |};
     SoundPlayer.playlistIter :=
       Some {| pending := [tone2000]; current := Some tone1000 |};
     SoundPlayer.currentChannel := ch;
     SoundPlayer.volumeAdjust := 5 |}.

Definition calibration_file : FileSound :=
  {| getLeftSoundUrl := "left.wav";
     getSound ch := match ch with Left => Some 1%nat | Right => Some 2%nat | _ => None end |}.

Definition calibration_player : SingleFilePlayer.t :=
  {| SingleFilePlayer.audioDevice := silent_sink;
     SingleFilePlayer.file := Some calibration_file |}.

(** A new single-file player with the calibration file, at full volume; the
    same after [start] and two [IdleState] notifications; and after the
    [stop] that follows. *)
Definition new_calibration_player : SingleFilePlayer.t :=
  SingleFilePlayer.construct (Some calibration_file) 1.



End Sample.

(** * Properties of the sequencer *)

Create HintDb monad discriminated.
Create HintDb sequencer discriminated.

#[local] Hint Unfold
  bind ret get modify deref emit invoke isOpen open_ReadOnly QAudioOutput_stop
  : monad.

#[local] Hint Unfold
  SoundPlayer.timeGapTimer_setInterval SoundPlayer.timeGapTimer_start
  SoundPlayer.timeGapTimer_stop SoundPlayer.audioDevice_setVolume
  SoundPlayer.audioDevice_start SoundPlayer.audioDevice_stop
  SoundPlayer.onStoppedState SoundPlayer.setNoSoundTimeSpanMs
  SoundPlayer.setPlaylist SoundPlayer.resetPlaylist
  SoundPlayer.skipCurrentSoundSet SoundPlayer.setCorrectionAdjustVolume
  SoundPlayer.stopPlaylist SoundPlayer.onStateChanged SoundPlayer.getSample
  SoundPlayer.setAudioDevice SoundPlayer.playPlaylist
  SoundPlayer.playNextSample SoundPlayer.deliver SoundPlayer.exec
  SingleFilePlayer.audioDevice_setVolume SingleFilePlayer.audioDevice_start
  SingleFilePlayer.audioDevice_stop SingleFilePlayer.onStoppedState
  SingleFilePlayer.setFileSound SingleFilePlayer.setVolume
  SingleFilePlayer.stop SingleFilePlayer.setAudioDevice
  SingleFilePlayer.start SingleFilePlayer.onStateChanged
  : sequencer.

(** Unfold a handler down to the primitive steps and evaluate it. *)
Ltac evaluate := autounfold with sequencer monad; simpl.

(** Split on every test the evaluated handler still branches on. *)
Ltac split_cases :=
  repeat (simpl;
          match goal with
          | |- context [match ?x with _ => _ end] => destruct x eqn:?
          end);
  simpl.

Section SequencerProperties.
Context `{QReal} {I : Type} `{!PlaylistIter.Interface I}.
Implicit Types (sp : SoundPlayer.t I) (e : Env) (it : I) (d : QIODevice).

(** C1.  During a playlist run (the iterator is set), a notification of the
    state the sink is in is handled as the state table says: [ActiveState]
    emits [currentPlaylistElement] with the iterator's frequency, volume in dB
    and volume in percent; [SuspendedState] does nothing; [StoppedState]
    starts the gap timer; [IdleState] stops the sink and emits [stopPlaying]
    (the [StoppedState] notification that this stop raises is handled by the
    [StoppedState] row before [stopPlaying] goes out). *)
Theorem onStateChanged_follows_state_table sp e it st :
  SoundPlayer.playlistIter sp = Some it ->
  state (SoundPlayer.audioDevice sp) = st ->
  match st with
  | ActiveState =>
      SoundPlayer.onStateChanged st sp e =
        Ok tt sp
          (record (Emit (currentPlaylistElement
             {| frequency := PlaylistIter.getCurrentFrequency it;
                volumeDb := PlaylistIter.getCurrentVolumeDb it;
                volumePercent := PlaylistIter.getCurrentVolumePercent it |})) e)
  | SuspendedState =>
      SoundPlayer.onStateChanged st sp e = Ok tt sp e
  | StoppedState =>
      SoundPlayer.onStateChanged st sp e =
        Ok tt (SoundPlayer.with_timeGapTimer QTimer_start sp)
          (record (Invoke TimerStart) e)
  | IdleState =>
      exists sp' e',
        SoundPlayer.onStateChanged st sp e = Ok tt sp' e' /\
        state (SoundPlayer.audioDevice sp') = StoppedState /\
        trace e' = trace e ++ [Invoke AudioStop; Invoke TimerStart; Emit stopPlaying]
  | InterruptedState =>
      SoundPlayer.onStateChanged st sp e = Ok tt sp e
  end.
Proof.
  intros Hit Hst. destruct st; evaluate; rewrite ?Hit; try reflexivity.
  rewrite Hst. simpl. eexists _, _. split; [reflexivity|]. simpl.
  split; [reflexivity|]. rewrite <- !app_assoc. reflexivity.
Qed.

Lemma getSample_fetch sp e it sample it' call :
  SoundPlayer.playlistIter sp = Some it ->
  SoundPlayer.fetch (SoundPlayer.currentChannel sp) it = Some (sample, it', call) ->
  SoundPlayer.getSample sp e =
    Ok sample (SoundPlayer.with_playlistIter (Some it') sp) (record (Invoke call) e).
Proof.
  intros Hit Hf. unfold SoundPlayer.fetch in Hf. evaluate.
  destruct (SoundPlayer.currentChannel sp); rewrite ?Hit; simpl; try discriminate.
  - destruct (PlaylistIter.nextLeft it) as [s1 i1]. by inversion Hf.
  - destruct (PlaylistIter.nextRight it) as [s1 i1]. by inversion Hf.
Qed.

(** The three ways [setAudioDevice] ends on a stream that exists. *)
Lemma setAudioDevice_open_fails sp e d v :
  d ∉ opened e -> d ∉ openable e ->
  SoundPlayer.setAudioDevice (Some d) v sp e =
    Ok tt
      (SoundPlayer.with_audioDevice
         (QAudioOutput_setVolume (qadd v (SoundPlayer.volumeAdjust sp))) sp)
      (record (Emit (errorString SOUND_SAMPLE_OPEN_ERROR))
         (record (Invoke (DeviceOpen d))
            (record (Invoke (AudioSetVolume (qadd v (SoundPlayer.volumeAdjust sp)))) e))).
Proof.
  intros Hclosed Hlocked. evaluate.
  rewrite (bool_decide_eq_false_2 _ Hclosed). simpl.
  rewrite (bool_decide_eq_false_2 _ Hlocked). reflexivity.
Qed.

Lemma setAudioDevice_opens sp e d v :
  d ∉ opened e -> d ∈ openable e ->
  SoundPlayer.setAudioDevice (Some d) v sp e =
    Ok tt
      (SoundPlayer.with_audioDevice (QAudioOutput_start d)
         (SoundPlayer.with_audioDevice
            (QAudioOutput_setVolume (qadd v (SoundPlayer.volumeAdjust sp))) sp))
      (record (Invoke (AudioStart d))
         (mark_open d
            (record (Invoke (DeviceOpen d))
               (record (Invoke (AudioSetVolume (qadd v (SoundPlayer.volumeAdjust sp)))) e)))).
Proof.
  intros Hclosed Hcan. evaluate.
  rewrite (bool_decide_eq_false_2 _ Hclosed). simpl.
  rewrite (bool_decide_eq_true_2 _ Hcan). reflexivity.
Qed.

Lemma setAudioDevice_already_open sp e d v :
  d ∈ opened e ->
  SoundPlayer.setAudioDevice (Some d) v sp e =
    Ok tt
      (SoundPlayer.with_audioDevice (QAudioOutput_start d)
         (SoundPlayer.with_audioDevice
            (QAudioOutput_setVolume (qadd v (SoundPlayer.volumeAdjust sp))) sp))
      (record (Invoke (AudioStart d))
         (record (Invoke (AudioSetVolume (qadd v (SoundPlayer.volumeAdjust sp)))) e)).
Proof.
  intros Hopen. evaluate.
  rewrite (bool_decide_eq_true_2 _ Hopen). reflexivity.
Qed.

(** The volume is written to the sink before anything can go wrong. *)
Lemma setAudioDevice_volume sp e device v :
  volume (SoundPlayer.audioDevice
            (final_state (SoundPlayer.setAudioDevice device v sp e))) =
    qadd v (SoundPlayer.volumeAdjust sp).
Proof.
  evaluate. destruct device as [d|]; simpl; [|reflexivity].
  destruct (bool_decide (d ∈ opened e)); simpl; [reflexivity|].
  destruct (bool_decide (d ∈ openable e)); reflexivity.
Qed.

Lemma playNextSample_fetch sp e it dev v it' call :
  SoundPlayer.playlistIter sp = Some it ->
  PlaylistIter.hasNext it = true ->
  SoundPlayer.fetch (SoundPlayer.currentChannel sp) it = Some ((dev, v), it', call) ->
  SoundPlayer.playNextSample sp e =
    SoundPlayer.setAudioDevice dev v
      (SoundPlayer.with_playlistIter (Some it') sp)
      (record (Invoke call) (record (Emit aboutToPlayNextElement) e)).
Proof.
  intros Hit Hnext Hfetch.
  unfold SoundPlayer.playNextSample, bind at 1 2 3.
  unfold emit at 1, get at 1, deref at 1. rewrite Hit, Hnext.
  unfold bind at 1.
  rewrite (getSample_fetch sp _ it (dev, v) it' call Hit Hfetch). reflexivity.
Qed.

(** C2.  On a gap-timer expiry during a run, [playNextSample] first emits
    [aboutToPlayNextElement].  With no next entry it then emits
    [playlistEnded] once and touches neither sink nor sequencer state.  With a
    next entry for the current channel it fetches the entry through the
    channel's accessor and hands it to [setAudioDevice]; when the stream is
    open or can be opened, that sets the sink volume to the entry's volume
    plus the adjustment and starts the stream on the sink. *)
Theorem playNextSample_advances_or_ends sp e it :
  SoundPlayer.playlistIter sp = Some it ->
  let e1 := record (Emit aboutToPlayNextElement) e in
  (PlaylistIter.hasNext it = false ->
     SoundPlayer.playNextSample sp e = Ok tt sp (record (Emit playlistEnded) e1)) /\
  (PlaylistIter.hasNext it = true ->
     forall dev v it' call,
       SoundPlayer.fetch (SoundPlayer.currentChannel sp) it = Some ((dev, v), it', call) ->
       SoundPlayer.playNextSample sp e =
         SoundPlayer.setAudioDevice dev v
           (SoundPlayer.with_playlistIter (Some it') sp) (record (Invoke call) e1) /\
       forall d, dev = Some d -> d ∈ opened e \/ d ∈ openable e ->
         exists sp' e',
           SoundPlayer.playNextSample sp e = Ok tt sp' e' /\
           SoundPlayer.playlistIter sp' = Some it' /\
           volume (SoundPlayer.audioDevice sp') = qadd v (SoundPlayer.volumeAdjust sp) /\
           source (SoundPlayer.audioDevice sp') = Some d /\
           trace e' =
             trace e ++
               ([Emit aboutToPlayNextElement; Invoke call;
                 Invoke (AudioSetVolume (qadd v (SoundPlayer.volumeAdjust sp)))] ++
                ((if bool_decide (d ∈ opened e) then [] else [Invoke (DeviceOpen d)]) ++
                 [Invoke (AudioStart d)]))).
Proof.
  intros Hit e1. split.
  - intros Hno.
    unfold SoundPlayer.playNextSample. evaluate. rewrite Hit. simpl.
    rewrite Hno. reflexivity.
  - intros Hnext dev v it' call Hfetch.
    pose proof (playNextSample_fetch sp e it dev v it' call Hit Hnext Hfetch) as Hplay.
    split; [exact Hplay|].
    intros d -> Hstream. rewrite Hplay.
    destruct (decide (d ∈ opened e)) as [Hopen|Hclosed].
    + rewrite setAudioDevice_already_open by exact Hopen.
      eexists _, _. split; [reflexivity|]. simpl.
      rewrite (bool_decide_eq_true_2 _ Hopen). simpl.
      repeat split; try reflexivity. rewrite <- !app_assoc. reflexivity.
    + destruct Hstream as [Hopen|Hcan]; [contradiction|].
      rewrite setAudioDevice_opens by assumption.
      eexists _, _. split; [reflexivity|]. simpl.
      rewrite (bool_decide_eq_false_2 _ Hclosed). simpl.
      repeat split; try reflexivity. rewrite <- !app_assoc. reflexivity.
Qed.

Lemma new_events_record {S A} (m : M S A) (s : S) e evs :
  trace (final_env (m s e)) = trace e ++ evs -> new_events m s e = evs.
Proof. intros Heq. unfold new_events. rewrite Heq. apply drop_app_length. Qed.

(** C3, as the code has it.  When the playlist's fresh iterator has no entry,
    [playPlaylist] emits [errorString] with the playlist error exactly once
    and calls nothing on the sink, the timer or a stream; of the sequencer's
    state it replaces the iterator by the fresh one and records the requested
    channel, and leaves sink, timer, gap, playlist and volume adjustment as
    they were. *)
Theorem playPlaylist_empty_playlist sp e pl ch :
  SoundPlayer.playlist sp = Some pl ->
  PlaylistIter.hasNext (iterator pl) = false ->
  SoundPlayer.playPlaylist ch sp e =
    Ok tt
      (SoundPlayer.with_currentChannel ch
         (SoundPlayer.with_playlistIter (Some (iterator pl)) sp))
      (record (Emit (errorString PLAYLIST_ERROR)) e) /\
  new_events (SoundPlayer.playPlaylist ch) sp e = [Emit (errorString PLAYLIST_ERROR)] /\
  count (is_error PLAYLIST_ERROR) (new_events (SoundPlayer.playPlaylist ch) sp e) = 1%nat /\
  count is_start (new_events (SoundPlayer.playPlaylist ch) sp e) = 0%nat /\
  count is_sink_call (new_events (SoundPlayer.playPlaylist ch) sp e) = 0%nat.
Proof.
  intros Hpl Hempty.
  assert (Hrun : SoundPlayer.playPlaylist ch sp e =
            Ok tt
              (SoundPlayer.with_currentChannel ch
                 (SoundPlayer.with_playlistIter (Some (iterator pl)) sp))
              (record (Emit (errorString PLAYLIST_ERROR)) e)).
  { evaluate. rewrite Hpl. simpl. rewrite Hempty. reflexivity. }
  assert (Hnew : new_events (SoundPlayer.playPlaylist ch) sp e =
            [Emit (errorString PLAYLIST_ERROR)]).
  { apply new_events_record. rewrite Hrun. reflexivity. }
  rewrite Hnew. repeat split; [exact Hrun|reflexivity..].
Qed.

(** C4.  [setAudioDevice] on a stream: when the stream is not open and
    opening it read-only fails, [errorString] with the open error is emitted
    exactly once and the sink is not started; when opening succeeds the sink
    is started with the stream; when the stream is already open the sink is
    started with it and the stream is not opened again. *)
Theorem setAudioDevice_start_attempt sp e d v :
  let setVolume := Invoke (AudioSetVolume (qadd v (SoundPlayer.volumeAdjust sp))) in
  let events := new_events (SoundPlayer.setAudioDevice (Some d) v) sp e in
  let after := SoundPlayer.setAudioDevice (Some d) v sp e in
  faulted after = false /\
  (d ∉ opened e -> d ∉ openable e ->
     events = [setVolume; Invoke (DeviceOpen d); Emit (errorString SOUND_SAMPLE_OPEN_ERROR)] /\
     count (is_error SOUND_SAMPLE_OPEN_ERROR) events = 1%nat /\
     count is_start events = 0%nat /\
     source (SoundPlayer.audioDevice (final_state after)) =
       source (SoundPlayer.audioDevice sp) /\
     state (SoundPlayer.audioDevice (final_state after)) =
       state (SoundPlayer.audioDevice sp)) /\
  (d ∉ opened e -> d ∈ openable e ->
     events = [setVolume; Invoke (DeviceOpen d); Invoke (AudioStart d)] /\
     source (SoundPlayer.audioDevice (final_state after)) = Some d /\
     d ∈ opened (final_env after)) /\
  (d ∈ opened e ->
     events = [setVolume; Invoke (AudioStart d)] /\
     source (SoundPlayer.audioDevice (final_state after)) = Some d /\
     opened (final_env after) = opened e).
Proof.
  intros setVolume events after. subst events after. repeat split.
  - destruct (decide (d ∈ opened e)) as [Hopen|Hclosed].
    + by rewrite setAudioDevice_already_open.
    + destruct (decide (d ∈ openable e)).
      * by rewrite setAudioDevice_opens.
      * by rewrite setAudioDevice_open_fails.
  - apply new_events_record. rewrite setAudioDevice_open_fails by assumption.
    simpl. rewrite <- !app_assoc. reflexivity.
  - erewrite new_events_record.
    2: { rewrite setAudioDevice_open_fails by assumption.
         simpl. rewrite <- !app_assoc. reflexivity. }
    reflexivity.
  - erewrite new_events_record.
    2: { rewrite setAudioDevice_open_fails by assumption.
         simpl. rewrite <- !app_assoc. reflexivity. }
    reflexivity.
  - by rewrite setAudioDevice_open_fails.
  - by rewrite setAudioDevice_open_fails.
  - apply new_events_record. rewrite setAudioDevice_opens by assumption.
    simpl. rewrite <- !app_assoc. reflexivity.
  - by rewrite setAudioDevice_opens.
  - rewrite setAudioDevice_opens by assumption. simpl. set_solver.
  - apply new_events_record. rewrite setAudioDevice_already_open by assumption.
    simpl. rewrite <- !app_assoc. reflexivity.
  - by rewrite setAudioDevice_already_open.
  - by rewrite setAudioDevice_already_open.
Qed.

(** C10.  When the stream is not open and cannot be opened, the error is
    emitted after the sink's volume has been set: at the end the sink's
    volume is the sample's volume plus the adjustment, whatever it was
    before, and the [setVolume] call precedes the failed open in the trace. *)
Theorem setAudioDevice_failure_keeps_volume_change sp e d v :
  d ∉ opened e -> d ∉ openable e ->
  exists sp' e',
    SoundPlayer.setAudioDevice (Some d) v sp e = Ok tt sp' e' /\
    volume (SoundPlayer.audioDevice sp') = qadd v (SoundPlayer.volumeAdjust sp) /\
    trace e' =
      trace e ++
        [Invoke (AudioSetVolume (qadd v (SoundPlayer.volumeAdjust sp)));
         Invoke (DeviceOpen d);
         Emit (errorString SOUND_SAMPLE_OPEN_ERROR)].
Proof.
  intros Hclosed Hlocked. rewrite setAudioDevice_open_fails by assumption.
  eexists _, _. split; [reflexivity|]. split; [reflexivity|].
  simpl. rewrite <- !app_assoc. reflexivity.
Qed.

(** ** Invariants of monadic code *)

Lemma invariant_ret {S A} (P : S -> Prop) (a : A) : invariant P (ret a).
Proof. intros s e Hs. exact Hs. Qed.

Lemma invariant_bind {S A B} (P : S -> Prop) (m : M S A) (k : A -> M S B) :
  invariant P m -> (forall a, invariant P (k a)) -> invariant P (bind m k).
Proof.
  intros Hm Hk s e Hs. unfold bind.
  specialize (Hm s e Hs). destruct (m s e) as [a s1 e1|s1 e1]; simpl in *.
  - apply Hk. exact Hm.
  - exact Hm.
Qed.

Lemma invariant_get {S} (P : S -> Prop) : invariant P (@get _ S).
Proof. intros s e Hs. exact Hs. Qed.

Lemma invariant_deref {S A} (P : S -> Prop) (p : option A) :
  invariant P (@deref _ S A p).
Proof. intros s e Hs. destruct p; exact Hs. Qed.

Lemma invariant_emit {S} (P : S -> Prop) sig : invariant P (@emit _ S sig).
Proof. intros s e Hs. exact Hs. Qed.

Lemma invariant_invoke {S} (P : S -> Prop) c : invariant P (@invoke _ S c).
Proof. intros s e Hs. exact Hs. Qed.

Lemma invariant_isOpen {S} (P : S -> Prop) d : invariant P (@isOpen _ S d).
Proof. intros s e Hs. exact Hs. Qed.

Lemma invariant_open_ReadOnly {S} (P : S -> Prop) d :
  invariant P (@open_ReadOnly _ S d).
Proof.
  intros s e Hs. unfold open_ReadOnly.
  destruct (bool_decide (d ∈ openable e)); exact Hs.
Qed.

Lemma invariant_modify {S} (P : S -> Prop) (f : S -> S) :
  (forall s, P s -> P (f s)) -> invariant P (modify f).
Proof. intros Hf s e Hs. apply Hf. exact Hs. Qed.

(** Walk through a handler: every primitive keeps [P], every field update is
    left to [tac]. *)
Ltac invariant_walk tac :=
  repeat first
    [ apply invariant_bind; [|intros ?]
    | apply invariant_ret
    | apply invariant_get
    | apply invariant_deref
    | apply invariant_emit
    | apply invariant_invoke
    | apply invariant_isOpen
    | apply invariant_open_ReadOnly
    | apply invariant_modify; intros ? ?; solve [tac]
    | match goal with
      | |- invariant _ (match ?x with _ => _ end) => destruct x
      end ].

(** Only [setCorrectionAdjustVolume] writes [volumeAdjust]. *)
Lemma exec_keeps_volumeAdjust (c : SoundPlayer.Command I) (o : qreal) :
  SoundPlayer.adjusts_volume c = false ->
  invariant (fun sp => SoundPlayer.volumeAdjust sp = o) (SoundPlayer.exec c).
Proof.
  intros Hc. destruct c as [ms|p|ch| | | |stim]; try discriminate;
    try destruct stim as [|st]; simpl; autounfold with sequencer;
    invariant_walk ltac:(simpl; assumption).
Qed.

Lemma run_keeps_volumeAdjust (cs : list (SoundPlayer.Command I)) (o : qreal) :
  forallb (fun c => negb (SoundPlayer.adjusts_volume c)) cs = true ->
  invariant (fun sp => SoundPlayer.volumeAdjust sp = o) (SoundPlayer.run cs).
Proof.
  induction cs as [|c cs IH]; intros Hcs; simpl; [apply invariant_ret|].
  simpl in Hcs. apply andb_prop in Hcs as [Hc Hcs].
  apply negb_true_iff in Hc.
  apply invariant_bind; [by apply exec_keeps_volumeAdjust|intros _; by apply IH].
Qed.

Lemma playPlaylist_fetch sp e pl ch dev v it' call :
  SoundPlayer.playlist sp = Some pl ->
  PlaylistIter.hasNext (iterator pl) = true ->
  SoundPlayer.fetch ch (iterator pl) = Some ((dev, v), it', call) ->
  SoundPlayer.playPlaylist ch sp e =
    SoundPlayer.setAudioDevice dev v
      (SoundPlayer.with_playlistIter (Some it')
         (SoundPlayer.with_currentChannel ch sp))
      (record (Invoke call) e).
Proof.
  intros Hpl Hnext Hfetch. unfold SoundPlayer.fetch in Hfetch.
  evaluate. rewrite Hpl. simpl. rewrite Hnext.
  destruct ch; simpl; [| |discriminate].
  - destruct (PlaylistIter.nextLeft (iterator pl)) as [s1 i1].
    by inversion Hfetch.
  - destruct (PlaylistIter.nextRight (iterator pl)) as [s1 i1].
    by inversion Hfetch.
Qed.

(** C5.  Once [setCorrectionAdjustVolume o] has run, and until it runs again,
    whatever else the sequencer is asked to do or is told by sink and timer:
    every sample start ([setAudioDevice], reached from [playNextSample] and
    [playPlaylist] with the volume the iterator returned) sets the sink's
    volume to that volume plus [o]; and the data emitted on [ActiveState] are
    the iterator's frequency, volume in dB and volume in percent, the same
    for every value of the adjustment.  Setting the adjustment leaves the
    iterator alone. *)
Theorem volume_adjustment_on_start_not_in_report o cs sp e sp' e' :
  forallb (fun c => negb (SoundPlayer.adjusts_volume c)) cs = true ->
  SoundPlayer.run (SoundPlayer.SetCorrectionAdjustVolume o :: cs) sp e = Ok tt sp' e' ->
  SoundPlayer.volumeAdjust sp' = o /\
  (forall device v,
     volume (SoundPlayer.audioDevice
               (final_state (SoundPlayer.setAudioDevice device v sp' e'))) = qadd v o /\
     exists rest,
       new_events (SoundPlayer.setAudioDevice device v) sp' e' =
         Invoke (AudioSetVolume (qadd v o)) :: rest) /\
  (forall it dev v it' call,
     SoundPlayer.playlistIter sp' = Some it ->
     PlaylistIter.hasNext it = true ->
     SoundPlayer.fetch (SoundPlayer.currentChannel sp') it = Some ((dev, v), it', call) ->
     volume (SoundPlayer.audioDevice
               (final_state (SoundPlayer.playNextSample sp' e'))) = qadd v o) /\
  (forall pl ch dev v it' call,
     SoundPlayer.playlist sp' = Some pl ->
     PlaylistIter.hasNext (iterator pl) = true ->
     SoundPlayer.fetch ch (iterator pl) = Some ((dev, v), it', call) ->
     volume (SoundPlayer.audioDevice
               (final_state (SoundPlayer.playPlaylist ch sp' e'))) = qadd v o) /\
  (forall it o',
     SoundPlayer.playlistIter sp' = Some it ->
     SoundPlayer.onStateChanged ActiveState (SoundPlayer.with_volumeAdjust o' sp') e' =
       Ok tt (SoundPlayer.with_volumeAdjust o' sp')
         (record (Emit (currentPlaylistElement
            {| frequency := PlaylistIter.getCurrentFrequency it;
               volumeDb := PlaylistIter.getCurrentVolumeDb it;
               volumePercent := PlaylistIter.getCurrentVolumePercent it |})) e')) /\
  SoundPlayer.playlistIter (final_state (SoundPlayer.setCorrectionAdjustVolume o sp e)) =
    SoundPlayer.playlistIter sp.
Proof.
  intros Hcs Hrun.
  assert (Hadj : SoundPlayer.volumeAdjust sp' = o).
  { change (SoundPlayer.run (SoundPlayer.SetCorrectionAdjustVolume o :: cs) sp e)
      with (SoundPlayer.run cs (SoundPlayer.with_volumeAdjust o sp) e) in Hrun.
    pose proof (run_keeps_volumeAdjust cs o Hcs
                  (SoundPlayer.with_volumeAdjust o sp) e eq_refl) as Hkept.
    rewrite Hrun in Hkept. exact Hkept. }
  split; [exact Hadj|]. repeat split.
  - rewrite setAudioDevice_volume, Hadj. reflexivity.
  - rewrite <- Hadj. unfold new_events. evaluate.
    destruct device as [d|]; simpl.
    + destruct (bool_decide (d ∈ opened e')); simpl.
      * rewrite <- !app_assoc, drop_app_length. eauto.
      * destruct (bool_decide (d ∈ openable e')); simpl;
          rewrite <- !app_assoc, drop_app_length; eauto.
    + rewrite drop_app_length. eauto.
  - intros it dev v it' call Hit Hnext Hfetch.
    rewrite (playNextSample_fetch sp' e' it dev v it' call Hit Hnext Hfetch).
    rewrite setAudioDevice_volume. simpl. by rewrite Hadj.
  - intros pl ch dev v it' call Hpl Hnext Hfetch.
    rewrite (playPlaylist_fetch sp' e' pl ch dev v it' call Hpl Hnext Hfetch).
    rewrite setAudioDevice_volume. simpl. by rewrite Hadj.
  - intros it o' Hit. evaluate. rewrite Hit. reflexivity.
Qed.

(** ** The iterator handle stays set once a run has started *)

Lemma exec_keeps_iterator (c : SoundPlayer.Command I) :
  (forall ch, c <> SoundPlayer.PlayPlaylist ch) ->
  invariant SoundPlayer.has_iterator (SoundPlayer.exec c).
Proof.
  intros Hc. destruct c as [ms|p|ch| | | |stim];
    try (exfalso; by eapply Hc);
    try destruct stim as [|st]; simpl; autounfold with sequencer;
    invariant_walk ltac:(unfold SoundPlayer.has_iterator in *; simpl; eauto).
Qed.

Lemma playPlaylist_sets_iterator sp e ch pl :
  SoundPlayer.playlist sp = Some pl ->
  SoundPlayer.has_iterator (final_state (SoundPlayer.playPlaylist ch sp e)).
Proof.
  intros Hpl. unfold SoundPlayer.has_iterator. evaluate. rewrite Hpl. simpl.
  destruct (PlaylistIter.hasNext (iterator pl)); simpl; [|eauto].
  destruct ch; simpl.
  - destruct (PlaylistIter.nextLeft (iterator pl)) as [[[d|] v] it']; simpl; [|eauto].
    destruct (bool_decide (d ∈ opened _)); simpl; [eauto|].
    destruct (bool_decide (d ∈ openable _)); simpl; eauto.
  - destruct (PlaylistIter.nextRight (iterator pl)) as [[[d|] v] it']; simpl; [|eauto].
    destruct (bool_decide (d ∈ opened _)); simpl; [eauto|].
    destruct (bool_decide (d ∈ openable _)); simpl; eauto.
  - eauto.
Qed.

Lemma playPlaylist_Ok_iterator sp e ch sp' e' :
  SoundPlayer.playPlaylist ch sp e = Ok tt sp' e' -> SoundPlayer.has_iterator sp'.
Proof.
  intros Hrun. destruct (SoundPlayer.playlist sp) as [pl|] eqn:Hpl.
  - pose proof (playPlaylist_sets_iterator sp e ch pl Hpl) as Hset.
    rewrite Hrun in Hset. exact Hset.
  - revert Hrun. evaluate. rewrite Hpl. discriminate.
Qed.

Lemma exec_Ok_iterator (c : SoundPlayer.Command I) sp e sp' e' :
  SoundPlayer.has_iterator sp -> SoundPlayer.exec c sp e = Ok tt sp' e' -> SoundPlayer.has_iterator sp'.
Proof.
  intros Hsp Hrun. destruct c as [ms|p|ch| | | |stim];
    try (by eapply playPlaylist_Ok_iterator);
    match type of Hrun with
    | SoundPlayer.exec ?c _ _ = _ =>
        pose proof (exec_keeps_iterator c ltac:(discriminate) sp e Hsp) as Hkept
    end;
    rewrite Hrun in Hkept; exact Hkept.
Qed.

Lemma run_Ok_iterator (cs : list (SoundPlayer.Command I)) sp e sp' e' :
  SoundPlayer.has_iterator sp -> SoundPlayer.run cs sp e = Ok tt sp' e' -> SoundPlayer.has_iterator sp'.
Proof.
  revert sp e. induction cs as [|c cs IH]; intros sp e Hsp Hrun.
  - inversion Hrun. by subst.
  - simpl in Hrun. unfold bind in Hrun.
    destruct (SoundPlayer.exec c sp e) as [[] sp1 e1|sp1 e1] eqn:Hc; [|discriminate].
    eapply IH; [|exact Hrun]. by eapply exec_Ok_iterator.
Qed.

(** What [stopPlaylist] does, whatever the sink was doing. *)
Lemma stopPlaylist_with_iterator sp e it :
  SoundPlayer.playlistIter sp = Some it ->
  exists sp' e',
    SoundPlayer.stopPlaylist sp e = Ok tt sp' e' /\
    state (SoundPlayer.audioDevice sp') = StoppedState /\
    active (SoundPlayer.timeGapTimer sp') = false /\
    SoundPlayer.playlistIter sp' = Some (PlaylistIter.stop it) /\
    SoundPlayer.noSoundTimeSpanMs sp' = SoundPlayer.noSoundTimeSpanMs sp /\
    SoundPlayer.playlist sp' = SoundPlayer.playlist sp /\
    SoundPlayer.currentChannel sp' = SoundPlayer.currentChannel sp /\
    SoundPlayer.volumeAdjust sp' = SoundPlayer.volumeAdjust sp /\
    opened e' = opened e /\
    trace e' =
      trace e ++
        (Invoke AudioStop ::
           (if decide (state (SoundPlayer.audioDevice sp) = StoppedState)
            then [] else [Invoke TimerStart]) ++
           [Invoke TimerStop; Invoke IterStop]).
Proof.
  intros Hit. evaluate.
  destruct (decide (state (SoundPlayer.audioDevice sp) = StoppedState)) as [Hst|Hst];
    simpl; rewrite Hit; simpl; eexists _, _; (split; [reflexivity|]); simpl;
    rewrite <- ?app_assoc; repeat split; done.
Qed.

(** C6.  After a run has been started with [playPlaylist] and whatever has
    happened since, [stopPlaylist] does not fault: the iterator is there.  It
    calls [stop] on the sink, [stop] on the gap timer and [stop] on the
    iterator, in this order, and leaves the sink stopped and the timer
    inactive.  Called again at once it makes the same three calls, faults no
    more than the first time and leaves the sink, the timer and the
    sequencer's own fields as the first call left them; the iterator is told
    to stop a second time, so the whole state is unchanged when the
    iterator's [stop] is idempotent. *)
Theorem stopPlaylist_safe_after_run_started ch cs sp0 e0 sp e :
  SoundPlayer.run (SoundPlayer.PlayPlaylist ch :: cs) sp0 e0 = Ok tt sp e ->
  exists it sp1 e1 sp2 e2,
    SoundPlayer.playlistIter sp = Some it /\
    SoundPlayer.stopPlaylist sp e = Ok tt sp1 e1 /\
    state (SoundPlayer.audioDevice sp1) = StoppedState /\
    active (SoundPlayer.timeGapTimer sp1) = false /\
    SoundPlayer.playlistIter sp1 = Some (PlaylistIter.stop it) /\
    new_events SoundPlayer.stopPlaylist sp e =
      Invoke AudioStop ::
        (if decide (state (SoundPlayer.audioDevice sp) = StoppedState)
         then [] else [Invoke TimerStart]) ++
        [Invoke TimerStop; Invoke IterStop] /\
    SoundPlayer.stopPlaylist sp1 e1 = Ok tt sp2 e2 /\
    new_events SoundPlayer.stopPlaylist sp1 e1 =
      [Invoke AudioStop; Invoke TimerStop; Invoke IterStop] /\
    sp2 = SoundPlayer.with_playlistIter
            (Some (PlaylistIter.stop (PlaylistIter.stop it))) sp1 /\
    (PlaylistIter.stop (PlaylistIter.stop it) = PlaylistIter.stop it -> sp2 = sp1).
Proof.
  intros Hrun.
  assert (Hiter : SoundPlayer.has_iterator sp).
  { simpl in Hrun. unfold bind at 1 in Hrun.
    destruct (SoundPlayer.playPlaylist ch sp0 e0) as [[] sp' e'|sp' e'] eqn:Hplay;
      [|discriminate].
    eapply run_Ok_iterator; [|exact Hrun].
    by eapply playPlaylist_Ok_iterator. }
  destruct Hiter as [it Hit].
  destruct (stopPlaylist_with_iterator sp e it Hit)
    as (sp1 & e1 & Hstop1 & Hsink1 & Htimer1 & Hit1 & _ & _ & _ & _ & _ & Htrace1).
  destruct (stopPlaylist_with_iterator sp1 e1 _ Hit1)
    as (sp2 & e2 & Hstop2 & _ & _ & _ & _ & _ & _ & _ & _ & Htrace2).
  assert (Hsp2 : sp2 = SoundPlayer.with_playlistIter
                         (Some (PlaylistIter.stop (PlaylistIter.stop it))) sp1).
  { revert Hstop2. evaluate. rewrite Hsink1.
    destruct (decide (StoppedState = StoppedState)) as [_|Hne]; [|done].
    simpl. rewrite Hit1. simpl. intros Heq. inversion Heq.
    destruct sp1 as [a [iv ac] ms pl pit cc va]. simpl in *. by subst. }
  exists it, sp1, e1, sp2, e2. repeat split; try assumption.
  - apply new_events_record. by rewrite Hstop1.
  - apply new_events_record. rewrite Hstop2. simpl. rewrite Htrace2, Hsink1.
    by destruct (decide (StoppedState = StoppedState)).
  - intros Hidem. rewrite Hsp2, Hidem.
    destruct sp1 as [a tm ms pl pit cc va]. simpl in *. by subst.
Qed.

(** C7.  [stopPlaylist] during a run while the sink is active: stopping the
    sink raises [StoppedState], whose slot starts the gap timer; the timer is
    stopped right after, before [stopPlaylist] returns.  At return the sink is
    stopped and the timer inactive, so neither a timer expiry nor a sink
    notification (Active and Idle among them) can be delivered: no sample of
    the old run is started. *)
Theorem stopPlaylist_while_active_quiesces sp e it :
  SoundPlayer.playlistIter sp = Some it ->
  state (SoundPlayer.audioDevice sp) = ActiveState ->
  exists sp' e',
    SoundPlayer.stopPlaylist sp e = Ok tt sp' e' /\
    trace e' =
      trace e ++ [Invoke AudioStop; Invoke TimerStart; Invoke TimerStop; Invoke IterStop] /\
    state (SoundPlayer.audioDevice sp') = StoppedState /\
    active (SoundPlayer.timeGapTimer sp') = false /\
    (forall stim, SoundPlayer.enabled stim sp' = false) /\
    (forall stims, SoundPlayer.deliverable stims sp' e' = true -> stims = []).
Proof.
  intros Hit Hactive.
  destruct (stopPlaylist_with_iterator sp e it Hit)
    as (sp' & e' & Hstop & Hsink & Htimer & _ & _ & _ & _ & _ & _ & Htrace).
  rewrite Hactive in Htrace. simpl in Htrace.
  assert (Hquiet : forall stim, SoundPlayer.enabled stim sp' = false).
  { intros [|st]; simpl; [exact Htimer|]. by rewrite Hsink. }
  exists sp', e'. repeat split; try assumption.
  intros [|stim rest]; [done|]. simpl. by rewrite Hquiet.
Qed.

(** The order of delivery matters here: were the [StoppedState] slot to run
    only after [stopPlaylist] has returned, it would start the gap timer
    again and leave it running. *)
Remark stopped_slot_after_return_rearms_timer sp e it :
  SoundPlayer.playlistIter sp = Some it ->
  exists sp1 e1 sp2 e2,
    SoundPlayer.stopPlaylist sp e = Ok tt sp1 e1 /\
    SoundPlayer.onStateChanged StoppedState sp1 e1 = Ok tt sp2 e2 /\
    active (SoundPlayer.timeGapTimer sp2) = true /\
    SoundPlayer.enabled SoundPlayer.Timeout sp2 = true.
Proof.
  intros Hit.
  destruct (stopPlaylist_with_iterator sp e it Hit) as (sp1 & e1 & Hstop & _).
  exists sp1, e1. eexists _, _. split; [exact Hstop|].
  split; [reflexivity|]. split; reflexivity.
Qed.

(** C8, what the code does.  With a channel that is neither [Left] nor
    [Right] and an iterator that has a next entry, [getSample] returns a null
    stream; [setAudioDevice] sets the sink's volume to zero plus the
    adjustment and then dereferences the null stream.  Both [playNextSample]
    and [playPlaylist] end in that fault and no [errorString] has been
    emitted, with [DIRECTION_ERROR] or any other message. *)
Theorem unrecognised_channel_no_errorString sp e it pl :
  SoundPlayer.playlistIter sp = Some it ->
  PlaylistIter.hasNext it = true ->
  SoundPlayer.currentChannel sp = OtherDirection ->
  SoundPlayer.playlist sp = Some pl ->
  PlaylistIter.hasNext (iterator pl) = true ->
  let setVolume := Invoke (AudioSetVolume (qadd qzero (SoundPlayer.volumeAdjust sp))) in
  faulted (SoundPlayer.playNextSample sp e) = true /\
  new_events SoundPlayer.playNextSample sp e = [Emit aboutToPlayNextElement; setVolume] /\
  faulted (SoundPlayer.playPlaylist OtherDirection sp e) = true /\
  new_events (SoundPlayer.playPlaylist OtherDirection) sp e = [setVolume] /\
  (forall msg,
     count (is_error msg) (new_events SoundPlayer.playNextSample sp e) = 0%nat /\
     count (is_error msg)
       (new_events (SoundPlayer.playPlaylist OtherDirection) sp e) = 0%nat).
Proof.
  intros Hit Hnext Hch Hpl Hplnext setVolume.
  assert (Hnew1 : new_events SoundPlayer.playNextSample sp e =
                    [Emit aboutToPlayNextElement; setVolume]).
  { apply new_events_record. evaluate. rewrite Hit. simpl. rewrite Hnext, Hch.
    simpl. by rewrite <- !app_assoc. }
  assert (Hnew2 : new_events (SoundPlayer.playPlaylist OtherDirection) sp e =
                    [setVolume]).
  { apply new_events_record. evaluate. rewrite Hpl. simpl. by rewrite Hplnext. }
  rewrite Hnew1, Hnew2. repeat split.
  - evaluate. rewrite Hit. simpl. by rewrite Hnext, Hch.
  - evaluate. rewrite Hpl. simpl. by rewrite Hplnext.
Qed.

End SequencerProperties.

(** * Properties of the single-file player *)

Section SingleFileProperties.
Context `{QReal}.
Implicit Types (p : SingleFilePlayer.t) (e : Env) (f : FileSound) (d : QIODevice).

(** [setAudioDevice] on a stream that is open or can be opened starts it,
    opening it first when needed. *)
Lemma single_setAudioDevice_starts p e d :
  d ∈ opened e \/ d ∈ openable e ->
  exists e',
    SingleFilePlayer.setAudioDevice (Some d) p e =
      Ok tt (SingleFilePlayer.with_audioDevice (QAudioOutput_start d) p) e' /\
    d ∈ opened e' /\
    openable e' = openable e /\
    trace e' =
      trace e ++
        (if bool_decide (d ∈ opened e) then [] else [Invoke (DeviceOpen d)]) ++
        [Invoke (AudioStart d)].
Proof.
  intros Hstream. evaluate.
  destruct (decide (d ∈ opened e)) as [Hopen|Hclosed].
  - rewrite (bool_decide_eq_true_2 _ Hopen). simpl.
    eexists. split; [reflexivity|]. simpl. done.
  - destruct Hstream as [Hopen|Hcan]; [contradiction|].
    rewrite (bool_decide_eq_false_2 _ Hclosed). simpl.
    rewrite (bool_decide_eq_true_2 _ Hcan). simpl.
    eexists. split; [reflexivity|]. simpl.
    repeat split; [set_solver|by rewrite <- app_assoc].
Qed.


End SingleFileProperties.

(** * Further properties of the sequencer *)

(** Walk through a handler: every primitive keeps [P], every field update is
    left to [tac]. *)
Ltac keep_walking tac :=
  repeat first
    [ apply invariant_bind; [|intros ?]
    | apply invariant_ret
    | apply invariant_get
    | apply invariant_deref
    | apply invariant_emit
    | apply invariant_invoke
    | apply invariant_isOpen
    | apply invariant_open_ReadOnly
    | apply invariant_modify; intros ? ?; solve [tac]
    | match goal with
      | |- invariant _ (match ?x with _ => _ end) => destruct x
      end ].

Section SequencerCoverage.
Context `{QReal} {I : Type} `{!PlaylistIter.Interface I}.
Implicit Types (sp : SoundPlayer.t I) (e : Env) (it : I) (d : QIODevice).

(** ** The gap and the timer's interval *)

Lemma exec_keeps_interval (c : SoundPlayer.Command I) :
  invariant
    (fun sp => interval (SoundPlayer.timeGapTimer sp) = SoundPlayer.noSoundTimeSpanMs sp)
    (SoundPlayer.exec c).
Proof.
  destruct c as [ms|p|ch| | | |stim].
  - intros sp e _. reflexivity.
  - simpl; autounfold with sequencer; keep_walking ltac:(simpl; assumption).
  - simpl; autounfold with sequencer; keep_walking ltac:(simpl; assumption).
  - simpl; autounfold with sequencer; keep_walking ltac:(simpl; assumption).
  - simpl; autounfold with sequencer; keep_walking ltac:(simpl; assumption).
  - simpl; autounfold with sequencer; keep_walking ltac:(simpl; assumption).
  - destruct stim as [|st]; simpl; autounfold with sequencer;
      keep_walking ltac:(simpl; assumption).
Qed.

Lemma run_invariant (P : SoundPlayer.t I -> Prop) (cs : list (SoundPlayer.Command I)) :
  (forall c, In c cs -> invariant P (SoundPlayer.exec c)) ->
  invariant P (SoundPlayer.run cs).
Proof.
  induction cs as [|c cs IH]; intros Hcs; simpl; [apply invariant_ret|].
  apply invariant_bind.
  - apply Hcs. by left.
  - intros _. apply IH. intros c' Hc'. apply Hcs. by right.
Qed.

(** X1.  The gap timer's interval is the gap duration: the constructor makes
    them equal and every operation and delivery keeps them equal, up to a
    fault if there is one.  [setNoSoundTimeSpanMs] is read back by
    [getNoSoundTimeSpanMs], sets the interval at once, and neither starts nor
    stops the timer. *)
Theorem gap_duration_is_timer_interval
    (ms0 : Z) (pl0 : option (Playlist I)) (it0 : option I) (ch0 : Direction)
    (adj0 vol0 : qreal) (cs : list (SoundPlayer.Command I)) e :
  (let built := SoundPlayer.construct ms0 pl0 it0 ch0 adj0 vol0 e in
   let sp := final_state (SoundPlayer.run cs (fst built) (snd built)) in
   interval (SoundPlayer.timeGapTimer sp) = SoundPlayer.noSoundTimeSpanMs sp) /\
  (forall sp ms,
     exists sp',
       bind (SoundPlayer.setNoSoundTimeSpanMs ms)
         (fun _ => SoundPlayer.getNoSoundTimeSpanMs) sp e =
         Ok ms sp' (record (Invoke (TimerSetInterval ms)) e) /\
       interval (SoundPlayer.timeGapTimer sp') = ms /\
       active (SoundPlayer.timeGapTimer sp') = active (SoundPlayer.timeGapTimer sp) /\
       SoundPlayer.audioDevice sp' = SoundPlayer.audioDevice sp /\
       SoundPlayer.playlistIter sp' = SoundPlayer.playlistIter sp).
Proof.
  split.
  - intros built sp. subst sp.
    apply (run_invariant
             (fun sp => interval (SoundPlayer.timeGapTimer sp) =
                          SoundPlayer.noSoundTimeSpanMs sp)).
    + intros c _. apply exec_keeps_interval.
    + reflexivity.
  - intros sp ms. eexists. split; [reflexivity|]. repeat split.
Qed.

(** ** Handlers on a sequencer that has no iterator *)

(** X2.  [resetPlaylist] leaves the sequencer without an iterator.  Without
    one, [stopPlaylist] still stops the sink and the timer, and then faults
    on the iterator: the sink is stopped and the timer inactive where it
    ends, and no call reached an iterator. *)
Theorem stopPlaylist_without_iterator sp e :
  SoundPlayer.playlistIter sp = None ->
  faulted (SoundPlayer.stopPlaylist sp e) = true /\
  state (SoundPlayer.audioDevice (final_state (SoundPlayer.stopPlaylist sp e))) =
    StoppedState /\
  active (SoundPlayer.timeGapTimer (final_state (SoundPlayer.stopPlaylist sp e))) =
    false /\
  new_events SoundPlayer.stopPlaylist sp e =
    Invoke AudioStop ::
      (if decide (state (SoundPlayer.audioDevice sp) = StoppedState)
       then [] else [Invoke TimerStart]) ++ [Invoke TimerStop] /\
  (forall sp0,
     SoundPlayer.playlistIter (final_state (SoundPlayer.resetPlaylist sp0 e)) = None /\
     faulted (bind SoundPlayer.resetPlaylist (fun _ => SoundPlayer.stopPlaylist) sp0 e) =
       true).
Proof.
  intros Hnone.
  assert (Hstop : forall sp1, SoundPlayer.playlistIter sp1 = None ->
            faulted (SoundPlayer.stopPlaylist sp1 e) = true).
  { intros sp1 H1. evaluate.
    destruct (decide (state (SoundPlayer.audioDevice sp1) = StoppedState));
      simpl; by rewrite H1. }
  repeat split.
  - by apply Hstop.
  - evaluate.
    destruct (decide (state (SoundPlayer.audioDevice sp) = StoppedState)) as [Hs|Hs];
      simpl; rewrite Hnone; simpl; done.
  - evaluate.
    destruct (decide (state (SoundPlayer.audioDevice sp) = StoppedState));
      simpl; by rewrite Hnone.
  - apply new_events_record. evaluate.
    destruct (decide (state (SoundPlayer.audioDevice sp) = StoppedState));
      simpl; rewrite Hnone; simpl; by rewrite <- ?app_assoc.
  - unfold bind at 1. unfold SoundPlayer.resetPlaylist, modify. by apply Hstop.
Qed.

(** X3.  Without an iterator the other handlers that use it fault too:
    [skipCurrentSoundSet] and the [ActiveState] arm at once, with nothing
    emitted and nothing changed; [playNextSample] after it has emitted
    [aboutToPlayNextElement]. *)
Theorem handlers_without_iterator sp e :
  SoundPlayer.playlistIter sp = None ->
  SoundPlayer.skipCurrentSoundSet sp e = NullDeref sp e /\
  SoundPlayer.onStateChanged ActiveState sp e = NullDeref sp e /\
  SoundPlayer.playNextSample sp e =
    NullDeref sp (record (Emit aboutToPlayNextElement) e).
Proof.
  intros Hnone. repeat split; evaluate; by rewrite Hnone.
Qed.

(** ** Starting a run *)

(** X4.  [playPlaylist] without a playlist faults on the playlist pointer.
    By then the iterator of the previous run is gone; the channel has not
    been recorded, nothing was emitted and no collaborator was called. *)
Theorem playPlaylist_without_playlist sp e ch :
  SoundPlayer.playlist sp = None ->
  SoundPlayer.playPlaylist ch sp e =
    NullDeref (SoundPlayer.with_playlistIter None sp) e /\
  SoundPlayer.currentChannel (final_state (SoundPlayer.playPlaylist ch sp e)) =
    SoundPlayer.currentChannel sp /\
  new_events (SoundPlayer.playPlaylist ch) sp e = [].
Proof.
  intros Hnone.
  assert (Hrun : SoundPlayer.playPlaylist ch sp e =
                   NullDeref (SoundPlayer.with_playlistIter None sp) e).
  { evaluate. by rewrite Hnone. }
  split; [exact Hrun|]. split; [by rewrite Hrun|].
  apply new_events_record. rewrite Hrun. simpl. by rewrite app_nil_r.
Qed.

(** X5.  A run always starts at the beginning of the playlist: with a
    playlist set, what [playPlaylist] does and where it ends do not depend on
    the iterator and the channel a previous run has left behind. *)
Theorem playPlaylist_forgets_previous_run sp e pl ch (old : option I) (ch0 : Direction) :
  SoundPlayer.playlist sp = Some pl ->
  SoundPlayer.playPlaylist ch
    (SoundPlayer.with_currentChannel ch0 (SoundPlayer.with_playlistIter old sp)) e =
    SoundPlayer.playPlaylist ch sp e.
Proof.
  intros Hpl. evaluate. rewrite Hpl. simpl.
  destruct (PlaylistIter.hasNext (iterator pl)); [|reflexivity].
  destruct ch; reflexivity.
Qed.

(** X6.  [playPlaylist] on a playlist that has a first entry, for the left or
    the right channel, with a stream that is open or can be opened: the entry
    is fetched through the accessor of the requested channel, the sink gets
    the entry's volume plus the adjustment and is started with the stream
    (opened first when it was not open).  The iterator is the advanced one,
    the channel is recorded, the gap timer is as it was. *)
Theorem playPlaylist_starts_first_entry sp e pl ch d v it' call :
  SoundPlayer.playlist sp = Some pl ->
  PlaylistIter.hasNext (iterator pl) = true ->
  SoundPlayer.fetch ch (iterator pl) = Some ((Some d, v), it', call) ->
  d ∈ opened e \/ d ∈ openable e ->
  exists sp' e',
    SoundPlayer.playPlaylist ch sp e = Ok tt sp' e' /\
    new_events (SoundPlayer.playPlaylist ch) sp e =
      [Invoke call; Invoke (AudioSetVolume (qadd v (SoundPlayer.volumeAdjust sp)))] ++
      (if bool_decide (d ∈ opened e) then [] else [Invoke (DeviceOpen d)]) ++
      [Invoke (AudioStart d)] /\
    SoundPlayer.audioDevice sp' =
      {| state := ActiveState;
         volume := qadd v (SoundPlayer.volumeAdjust sp);
         source := Some d |} /\
    SoundPlayer.playlistIter sp' = Some it' /\
    SoundPlayer.currentChannel sp' = ch /\
    SoundPlayer.timeGapTimer sp' = SoundPlayer.timeGapTimer sp /\
    d ∈ opened e'.
Proof.
  intros Hpl Hnext Hfetch Hstream.
  pose proof (playPlaylist_fetch sp e pl ch (Some d) v it' call Hpl Hnext Hfetch) as Hplay.
  destruct (decide (d ∈ opened e)) as [Hopen|Hclosed].
  - rewrite setAudioDevice_already_open in Hplay by exact Hopen.
    eexists _, _. split; [exact Hplay|].
    split.
    { apply new_events_record. rewrite Hplay. simpl.
      rewrite (bool_decide_eq_true_2 _ Hopen). simpl. by rewrite <- !app_assoc. }
    simpl. repeat split; done.
  - destruct Hstream as [Hopen|Hcan]; [contradiction|].
    rewrite setAudioDevice_opens in Hplay by assumption.
    eexists _, _. split; [exact Hplay|].
    split.
    { apply new_events_record. rewrite Hplay. simpl.
      rewrite (bool_decide_eq_false_2 _ Hclosed). simpl. by rewrite <- !app_assoc. }
    simpl. repeat split; try done. set_solver.
Qed.

(** ** What a handler does to the streams and the trace *)

Section EnvRelation.
Context {S : Type} (R : Env -> Env -> Prop).
Hypothesis R_refl : forall e, R e e.
Hypothesis R_trans : forall e1 e2 e3, R e1 e2 -> R e2 e3 -> R e1 e3.

Lemma env_relates_ret {A} (a : A) : env_relates R (@ret _ S A a).
Proof. intros s e. apply R_refl. Qed.

Lemma env_relates_bind {A B} (m : M S A) (k : A -> M S B) :
  env_relates R m -> (forall a, env_relates R (k a)) -> env_relates R (bind m k).
Proof.
  intros Hm Hk s e. unfold bind. specialize (Hm s e).
  destruct (m s e) as [a s1 e1|s1 e1]; simpl in *; [|exact Hm].
  eapply R_trans; [exact Hm|apply Hk].
Qed.

Lemma env_relates_get : env_relates R (@get _ S).
Proof. intros s e. apply R_refl. Qed.

Lemma env_relates_modify (f : S -> S) : env_relates R (modify f).
Proof. intros s e. apply R_refl. Qed.

Lemma env_relates_deref {A} (p : option A) : env_relates R (@deref _ S A p).
Proof. intros s e. destruct p; apply R_refl. Qed.

Lemma env_relates_isOpen d : env_relates R (@isOpen _ S d).
Proof. intros s e. apply R_refl. Qed.

Lemma env_relates_emit sig :
  (forall e, R e (record (Emit sig) e)) -> env_relates R (@emit _ S sig).
Proof. intros Hrec s e. apply Hrec. Qed.

Lemma env_relates_invoke c :
  (forall e, R e (record (Invoke c) e)) -> env_relates R (@invoke _ S c).
Proof. intros Hrec s e. apply Hrec. Qed.

Lemma env_relates_open_ReadOnly d :
  (forall e, R e (record (Invoke (DeviceOpen d)) e)) ->
  (forall e, R e (mark_open d (record (Invoke (DeviceOpen d)) e))) ->
  env_relates R (@open_ReadOnly _ S d).
Proof.
  intros Hrec Hopen s e. unfold open_ReadOnly.
  destruct (bool_decide (d ∈ openable e)); simpl; [apply Hopen|apply Hrec].
Qed.

End EnvRelation.

Lemma streams_kept_refl e : streams_kept e e.
Proof. split; done. Qed.

Lemma streams_kept_trans e1 e2 e3 :
  streams_kept e1 e2 -> streams_kept e2 e3 -> streams_kept e1 e3.
Proof. intros [Ha Hb] [Hc Hd]. split; [by etrans|by rewrite Hd]. Qed.

Lemma streams_kept_record ev e : streams_kept e (record ev e).
Proof. split; done. Qed.

Lemma streams_kept_mark_open d ev e : streams_kept e (mark_open d (record ev e)).
Proof. split; simpl; [set_solver|done]. Qed.

Lemma appends_refl (P : Event -> Prop) e : appends P e e.
Proof. exists []. split; [by rewrite app_nil_r|constructor]. Qed.

Lemma appends_trans (P : Event -> Prop) e1 e2 e3 :
  appends P e1 e2 -> appends P e2 e3 -> appends P e1 e3.
Proof.
  intros (evs1 & H1 & HP1) (evs2 & H2 & HP2). exists (evs1 ++ evs2). split.
  - by rewrite H2, H1, app_assoc.
  - by apply Forall_app.
Qed.

Lemma appends_record (P : Event -> Prop) ev e : P ev -> appends P e (record ev e).
Proof. intros HP. exists [ev]. split; [done|by constructor]. Qed.

Lemma appends_mark_open (P : Event -> Prop) d ev e :
  P ev -> appends P e (mark_open d (record ev e)).
Proof. intros HP. exists [ev]. split; [done|by constructor]. Qed.

Lemma appends_new_events {S A} (P : Event -> Prop) (m : M S A) (s : S) e :
  appends P e (final_env (m s e)) -> Forall P (new_events m s e).
Proof.
  intros (evs & Htrace & HP). by rewrite (new_events_record m s e evs Htrace).
Qed.

Lemma count_none (p : Event -> bool) (evs : list Event) :
  Forall (fun ev => p ev = false) evs -> count p evs = 0%nat.
Proof.
  induction 1 as [|ev evs Hev _ IH]; [reflexivity|]. simpl. by rewrite Hev, IH.
Qed.

(** Walk through a handler for the streams. *)
Ltac walk_streams :=
  repeat first
    [ apply (env_relates_bind _ streams_kept_trans); [|intros ?]
    | apply (env_relates_ret _ streams_kept_refl)
    | apply (env_relates_get _ streams_kept_refl)
    | apply (env_relates_modify _ streams_kept_refl)
    | apply (env_relates_deref _ streams_kept_refl)
    | apply (env_relates_isOpen _ streams_kept_refl)
    | apply env_relates_emit; intros ?; apply streams_kept_record
    | apply env_relates_invoke; intros ?; apply streams_kept_record
    | apply env_relates_open_ReadOnly; intros ?;
        [apply streams_kept_record|apply streams_kept_mark_open]
    | match goal with
      | |- env_relates _ (match ?x with _ => _ end) => destruct x
      end ].

(** Walk through a handler for the events it appends; [tac] shows that an
    event satisfies the predicate. *)
Ltac walk_events tac :=
  repeat first
    [ apply (env_relates_bind _ (appends_trans _)); [|intros ?]
    | apply (env_relates_ret _ (appends_refl _))
    | apply (env_relates_get _ (appends_refl _))
    | apply (env_relates_modify _ (appends_refl _))
    | apply (env_relates_deref _ (appends_refl _))
    | apply (env_relates_isOpen _ (appends_refl _))
    | apply env_relates_emit; intros ?; apply appends_record; solve [tac]
    | apply env_relates_invoke; intros ?; apply appends_record; solve [tac]
    | apply env_relates_open_ReadOnly; intros ?;
        [apply appends_record|apply appends_mark_open]; solve [tac]
    | match goal with
      | |- env_relates _ (match ?x with _ => _ end) => destruct x
      end ].

Lemma run_env_relates (R : Env -> Env -> Prop) (cs : list (SoundPlayer.Command I)) :
  (forall e, R e e) ->
  (forall e1 e2 e3, R e1 e2 -> R e2 e3 -> R e1 e3) ->
  (forall c, In c cs -> env_relates R (SoundPlayer.exec c)) ->
  env_relates R (SoundPlayer.run cs).
Proof.
  intros Hrefl Htrans.
  induction cs as [|c cs IH]; intros Hcs; simpl; [by apply env_relates_ret|].
  apply env_relates_bind; [exact Htrans| |].
  - apply Hcs. by left.
  - intros _. apply IH. intros c' Hc'. apply Hcs. by right.
Qed.

Lemma exec_keeps_streams (c : SoundPlayer.Command I) :
  env_relates streams_kept (SoundPlayer.exec c).
Proof.
  destruct c as [ms|p|ch| | | |stim]; try destruct stim as [|st];
    simpl; autounfold with sequencer; walk_streams.
Qed.

Lemma exec_known_errors (c : SoundPlayer.Command I) :
  env_relates (appends known_error) (SoundPlayer.exec c).
Proof.
  destruct c as [ms|p|ch| | | |stim]; try destruct stim as [|st];
    simpl; autounfold with sequencer;
    walk_events ltac:(simpl; auto).
Qed.

(** X7.  The sequencer never closes a stream: after any operations and
    deliveries, faulting or not, every stream that was open is still open
    and no stream has changed its ability to open.  So a stream that is open
    is started again without another [open]: [setAudioDevice] only sets the
    volume and starts it. *)
Theorem streams_stay_open (cs : list (SoundPlayer.Command I)) sp e :
  streams_kept e (final_env (SoundPlayer.run cs sp e)) /\
  (forall d v sp',
     d ∈ opened e ->
     new_events (SoundPlayer.setAudioDevice (Some d) v) sp'
       (final_env (SoundPlayer.run cs sp e)) =
       [Invoke (AudioSetVolume (qadd v (SoundPlayer.volumeAdjust sp')));
        Invoke (AudioStart d)]).
Proof.
  assert (Hkept : streams_kept e (final_env (SoundPlayer.run cs sp e))).
  { apply (run_env_relates streams_kept cs streams_kept_refl streams_kept_trans).
    intros c _. apply exec_keeps_streams. }
  split; [exact Hkept|].
  intros d v sp' Hopen. destruct Hkept as [Hsub _].
  apply new_events_record.
  rewrite setAudioDevice_already_open by (by apply Hsub).
  simpl. by rewrite <- app_assoc.
Qed.

(** X8.  Whatever the sequencer is asked to do and whatever is delivered to
    it, the only messages it passes to [errorString] are the playlist error
    and the open error. *)
Theorem only_two_error_messages (cs : list (SoundPlayer.Command I)) sp e :
  Forall known_error (new_events (SoundPlayer.run cs) sp e) /\
  count (is_error DIRECTION_ERROR) (new_events (SoundPlayer.run cs) sp e) = 0%nat.
Proof.
  assert (Hknown : Forall known_error (new_events (SoundPlayer.run cs) sp e)).
  { apply appends_new_events.
    apply (run_env_relates (appends known_error) cs
             (appends_refl _) (appends_trans _)).
    intros c _. apply exec_known_errors. }
  split; [exact Hknown|].
  apply count_none. eapply Forall_impl; [exact Hknown|].
  intros [[msg| | | |]|c] Hev; simpl in *; try reflexivity.
  destruct Hev as [-> | ->]; reflexivity.
Qed.

Lemma exec_spares_timer (c : SoundPlayer.Command I) :
  SoundPlayer.touches_timer c = false ->
  env_relates (appends (fun ev => is_timer_call ev = false /\ is_stop ev = false))
    (SoundPlayer.exec c).
Proof.
  intros Hc. destruct c as [ms|p|ch| | | |stim]; try discriminate;
    try (destruct stim as [|st]; [discriminate|destruct st; try discriminate]);
    simpl; autounfold with sequencer;
    walk_events ltac:(simpl; auto).
Qed.

(** X9.  Only [setNoSoundTimeSpanMs], [stopPlaylist], the timer's expiry and
    the [StoppedState] and [IdleState] deliveries reach the gap timer.  Every
    other operation, [playPlaylist] among them, leaves the timer as it is,
    calls nothing on it and does not stop the sink: a gap that is running
    when a new run is started keeps running. *)
Theorem gap_timer_untouched (c : SoundPlayer.Command I) sp e :
  SoundPlayer.touches_timer c = false ->
  SoundPlayer.timeGapTimer (final_state (SoundPlayer.exec c sp e)) =
    SoundPlayer.timeGapTimer sp /\
  count is_timer_call (new_events (SoundPlayer.exec c) sp e) = 0%nat /\
  count is_stop (new_events (SoundPlayer.exec c) sp e) = 0%nat.
Proof.
  intros Hc. split.
  - assert (Hinv : invariant
                     (fun sp' => SoundPlayer.timeGapTimer sp' = SoundPlayer.timeGapTimer sp)
                     (SoundPlayer.exec c)).
    { destruct c as [ms|p|ch| | | |stim]; try discriminate;
        try (destruct stim as [|st]; [discriminate|destruct st; try discriminate]);
        simpl; autounfold with sequencer; keep_walking ltac:(simpl; assumption). }
    by apply Hinv.
  - pose proof (appends_new_events _ _ sp e (exec_spares_timer c Hc sp e)) as Hnew.
    split; apply count_none; (eapply Forall_impl; [exact Hnew|]); by intros ev [? ?].
Qed.

Lemma exec_spares_sink (c : SoundPlayer.Command I) :
  SoundPlayer.involves_sink c = false ->
  env_relates (appends (fun ev => is_sink_call ev = false)) (SoundPlayer.exec c).
Proof.
  intros Hc. destruct c as [ms|p|ch| | | |stim]; try discriminate;
    simpl; autounfold with sequencer; walk_events ltac:(simpl; auto).
Qed.

(** X10.  [setNoSoundTimeSpanMs], [setPlaylist], [skipCurrentSoundSet] and
    [setCorrectionAdjustVolume] leave the sink alone: its state, volume and
    stream are as before and nothing is called on it.  A new adjustment does
    not change the volume of the sample that is sounding, and skipping does
    not stop it. *)
Theorem sink_untouched (c : SoundPlayer.Command I) sp e :
  SoundPlayer.involves_sink c = false ->
  SoundPlayer.audioDevice (final_state (SoundPlayer.exec c sp e)) =
    SoundPlayer.audioDevice sp /\
  count is_sink_call (new_events (SoundPlayer.exec c) sp e) = 0%nat.
Proof.
  intros Hc. split.
  - assert (Hinv : invariant
                     (fun sp' => SoundPlayer.audioDevice sp' = SoundPlayer.audioDevice sp)
                     (SoundPlayer.exec c)).
    { destruct c as [ms|p|ch| | | |stim]; try discriminate;
        simpl; autounfold with sequencer; keep_walking ltac:(simpl; assumption). }
    by apply Hinv.
  - apply count_none.
    exact (appends_new_events _ _ sp e (exec_spares_sink c Hc sp e)).
Qed.

(** ** The gap between two samples *)

(** X11.  When the sink reports [IdleState] the gap begins: the sink is
    stopped, the timer is started and [stopPlaying] is emitted, in this
    order, iterator or not.  Until the timer expires nothing else can be
    delivered. *)
Theorem idle_delivery_begins_gap sp e :
  exists sp' e',
    SoundPlayer.deliver (SoundPlayer.StateChanged IdleState) sp e = Ok tt sp' e' /\
    new_events (SoundPlayer.deliver (SoundPlayer.StateChanged IdleState)) sp e =
      [Invoke AudioStop; Invoke TimerStart; Emit stopPlaying] /\
    state (SoundPlayer.audioDevice sp') = StoppedState /\
    active (SoundPlayer.timeGapTimer sp') = true /\
    SoundPlayer.playlistIter sp' = SoundPlayer.playlistIter sp /\
    SoundPlayer.enabled SoundPlayer.Timeout sp' = true /\
    (forall st, SoundPlayer.enabled (SoundPlayer.StateChanged st) sp' = false).
Proof.
  eexists _, _. split; [reflexivity|]. split.
  - apply new_events_record. simpl. by rewrite <- !app_assoc.
  - repeat split.
Qed.

(** X12.  The end of a run.  With the sink stopped and an iterator that has
    no next entry, the timer's expiry emits [aboutToPlayNextElement] and
    [playlistEnded] and nothing else; after it the timer is inactive and the
    sink stopped, so nothing more is delivered until the next operation:
    [playlistEnded] is not emitted a second time. *)
Theorem timeout_at_end_of_playlist sp e it :
  state (SoundPlayer.audioDevice sp) = StoppedState ->
  SoundPlayer.playlistIter sp = Some it ->
  PlaylistIter.hasNext it = false ->
  exists sp' e',
    SoundPlayer.deliver SoundPlayer.Timeout sp e = Ok tt sp' e' /\
    new_events (SoundPlayer.deliver SoundPlayer.Timeout) sp e =
      [Emit aboutToPlayNextElement; Emit playlistEnded] /\
    (forall stim, SoundPlayer.enabled stim sp' = false) /\
    (forall stims, SoundPlayer.deliverable stims sp' e' = true -> stims = []).
Proof.
  intros Hstopped Hit Hend.
  assert (Hrun : SoundPlayer.deliver SoundPlayer.Timeout sp e =
            Ok tt (SoundPlayer.with_timeGapTimer QTimer_expire sp)
              (record (Emit playlistEnded) (record (Emit aboutToPlayNextElement) e))).
  { evaluate. rewrite Hit. simpl. by rewrite Hend. }
  assert (Hquiet : forall stim,
            SoundPlayer.enabled stim (SoundPlayer.with_timeGapTimer QTimer_expire sp) = false).
  { intros [|st]; simpl; [reflexivity|]. by rewrite Hstopped. }
  eexists _, _. split; [exact Hrun|]. split.
  - apply new_events_record. rewrite Hrun. simpl. by rewrite <- !app_assoc.
  - split; [exact Hquiet|].
    intros [|stim rest]; [done|]. simpl. by rewrite Hquiet.
Qed.

(** X13.  A stream that cannot be opened ends the run without [playlistEnded]:
    on the timer's expiry the next entry is fetched, the sink's volume is set,
    the open fails and the open error is emitted.  The iterator has moved on,
    the sink is still stopped and the timer inactive, so nothing more is
    delivered: the sequencer does not try again and does not go on to the
    entry after. *)
Theorem timeout_with_unopenable_stream sp e it d v it' call :
  state (SoundPlayer.audioDevice sp) = StoppedState ->
  SoundPlayer.playlistIter sp = Some it ->
  PlaylistIter.hasNext it = true ->
  SoundPlayer.fetch (SoundPlayer.currentChannel sp) it = Some ((Some d, v), it', call) ->
  d ∉ opened e -> d ∉ openable e ->
  exists sp' e',
    SoundPlayer.deliver SoundPlayer.Timeout sp e = Ok tt sp' e' /\
    new_events (SoundPlayer.deliver SoundPlayer.Timeout) sp e =
      [Emit aboutToPlayNextElement; Invoke call;
       Invoke (AudioSetVolume (qadd v (SoundPlayer.volumeAdjust sp)));
       Invoke (DeviceOpen d); Emit (errorString SOUND_SAMPLE_OPEN_ERROR)] /\
    SoundPlayer.playlistIter sp' = Some it' /\
    (forall stim, SoundPlayer.enabled stim sp' = false) /\
    (forall stims, SoundPlayer.deliverable stims sp' e' = true -> stims = []).
Proof.
  intros Hstopped Hit Hnext Hfetch Hclosed Hlocked.
  set (sp0 := SoundPlayer.with_timeGapTimer QTimer_expire sp).
  assert (Hplay : SoundPlayer.deliver SoundPlayer.Timeout sp e =
                    SoundPlayer.playNextSample sp0 e) by reflexivity.
  rewrite (playNextSample_fetch sp0 e it (Some d) v it' call Hit Hnext Hfetch) in Hplay.
  rewrite setAudioDevice_open_fails in Hplay by assumption.
  eexists _, _. split; [exact Hplay|]. split.
  - apply new_events_record. rewrite Hplay. simpl. by rewrite <- !app_assoc.
  - split; [reflexivity|].
    assert (Hquiet : forall stim,
              SoundPlayer.enabled stim
                (SoundPlayer.with_audioDevice
                   (QAudioOutput_setVolume (qadd v (SoundPlayer.volumeAdjust sp)))
                   (SoundPlayer.with_playlistIter (Some it') sp0)) = false).
    { intros [|st]; simpl; [reflexivity|]. by rewrite Hstopped. }
    split; [exact Hquiet|].
    intros [|stim rest]; [done|]. simpl.
    change (SoundPlayer.volumeAdjust (SoundPlayer.with_playlistIter (Some it') sp0))
      with (SoundPlayer.volumeAdjust sp).
    by rewrite Hquiet.
Qed.

End SequencerCoverage.

(** * Further properties of the single-file player *)

Section SingleFileCoverage.
Context `{QReal}.
Implicit Types (p : SingleFilePlayer.t) (e : Env) (f : FileSound) (d : QIODevice).

Lemma single_run_invariant (P : SingleFilePlayer.t -> Prop)
    (cs : list SingleFilePlayer.Command) :
  (forall c, In c cs -> invariant P (SingleFilePlayer.exec c)) ->
  invariant P (SingleFilePlayer.run cs).
Proof.
  induction cs as [|c cs IH]; intros Hcs; simpl; [apply invariant_ret|].
  apply invariant_bind.
  - apply Hcs. by left.
  - intros _. apply IH. intros c' Hc'. apply Hcs. by right.
Qed.

Lemma single_exec_keeps_left (c : SingleFilePlayer.Command) :
  invariant SingleFilePlayer.file_has_left (SingleFilePlayer.exec c).
Proof.
  destruct c as [value|v| | |st].
  - intros p e Hp. simpl. unfold SingleFilePlayer.setFileSound, bind, deref.
    destruct value as [f|]; simpl; [|exact Hp].
    unfold SingleFilePlayer.isEmpty.
    destruct (decide (getLeftSoundUrl f = EmptyString)) as [Hempty|Hleft].
    + rewrite (bool_decide_eq_true_2 _ Hempty). exact Hp.
    + rewrite (bool_decide_eq_false_2 _ Hleft). exact Hleft.
  - simpl; autounfold with sequencer;
      keep_walking ltac:(unfold SingleFilePlayer.file_has_left in *; simpl; assumption).
  - simpl; autounfold with sequencer;
      keep_walking ltac:(unfold SingleFilePlayer.file_has_left in *; simpl; assumption).
  - simpl; autounfold with sequencer;
      keep_walking ltac:(unfold SingleFilePlayer.file_has_left in *; simpl; assumption).
  - unfold SingleFilePlayer.exec, SingleFilePlayer.deliver. autounfold with sequencer.
    keep_walking ltac:(unfold SingleFilePlayer.file_has_left in *; simpl; assumption).
Qed.

(** X14.  [setFileSound] takes a file only when the url of its left channel
    is not empty, and otherwise keeps the file there was, touching nothing.
    So the file of a player, when it has one with a left channel, has one
    with a left channel after any operations and deliveries. *)
Theorem file_always_has_left_channel (cs : list SingleFilePlayer.Command) p e :
  SingleFilePlayer.file_has_left p ->
  SingleFilePlayer.file_has_left (final_state (SingleFilePlayer.run cs p e)) /\
  (forall f, getLeftSoundUrl f = EmptyString ->
     SingleFilePlayer.setFileSound (Some f) p e = Ok tt p e) /\
  (forall f, getLeftSoundUrl f <> EmptyString ->
     SingleFilePlayer.setFileSound (Some f) p e =
       Ok tt (SingleFilePlayer.with_file (Some f) p) e).
Proof.
  intros Hp. split; [|split].
  - apply (single_run_invariant SingleFilePlayer.file_has_left); [|exact Hp].
    intros c _. apply single_exec_keeps_left.
  - intros f Hempty. unfold SingleFilePlayer.setFileSound, bind, deref. simpl.
    unfold SingleFilePlayer.isEmpty. by rewrite (bool_decide_eq_true_2 _ Hempty).
  - intros f Hleft. unfold SingleFilePlayer.setFileSound, bind, deref. simpl.
    unfold SingleFilePlayer.isEmpty. by rewrite (bool_decide_eq_false_2 _ Hleft).
Qed.

Lemma single_exec_started_from_file (c : SingleFilePlayer.Command) p e :
  SingleFilePlayer.started_from_file p ->
  SingleFilePlayer.admissible c p = true ->
  SingleFilePlayer.started_from_file (final_state (SingleFilePlayer.exec c p e)).
Proof.
  unfold SingleFilePlayer.started_from_file. intros Hp Hc.
  destruct c as [value|v| | |st]; simpl in *.
  - unfold SingleFilePlayer.setFileSound, bind, deref.
    destruct value as [f|]; simpl; [|exact Hp].
    destruct (negb (SingleFilePlayer.isEmpty (getLeftSoundUrl f))); simpl; eauto.
  - exact Hp.
  - unfold SingleFilePlayer.start, bind, get.
    destruct (SingleFilePlayer.file p) as [f|] eqn:Hfile; simpl;
      [|by rewrite Hfile].
    assert (Hkeep : invariant (fun p' => SingleFilePlayer.file p' = Some f)
                      (SingleFilePlayer.setAudioDevice (getSound f Left))).
    { autounfold with sequencer. keep_walking ltac:(simpl; assumption). }
    intros _. rewrite (Hkeep p e Hfile). eauto.
  - intros Hstate. exfalso. apply Hstate. revert Hstate. evaluate.
    destruct (decide (state (SingleFilePlayer.audioDevice p) = StoppedState)); done.
  - unfold SingleFilePlayer.enabled in Hc. apply negb_true_iff in Hc.
    apply bool_decide_eq_false_1 in Hc. destruct (Hp Hc) as [f Hfile].
    assert (Hkeep : invariant (fun p' => SingleFilePlayer.file p' = Some f)
                      (SingleFilePlayer.deliver st)).
    { unfold SingleFilePlayer.deliver. autounfold with sequencer.
      keep_walking ltac:(simpl; assumption). }
    intros _. rewrite (Hkeep p e Hfile). eauto.
Qed.

Lemma single_run_started_from_file (cs : list SingleFilePlayer.Command) p e :
  SingleFilePlayer.started_from_file p ->
  SingleFilePlayer.admissible_run cs p e = true ->
  faulted (SingleFilePlayer.run cs p e) = false /\
  SingleFilePlayer.started_from_file (final_state (SingleFilePlayer.run cs p e)).
Proof.
  revert p e. induction cs as [|c cs IH]; intros p e Hp Hrun; [by split|].
  simpl in Hrun. apply andb_prop in Hrun as [Hc Hrest].
  pose proof (single_exec_started_from_file c p e Hp Hc) as Hstep.
  simpl. unfold bind.
  destruct (SingleFilePlayer.exec c p e) as [[] p1 e1|p1 e1]; [|discriminate].
  by apply IH.
Qed.

(** X15.  [start] does nothing without a file, but the [IdleState] arm reads
    the file unguarded.  It never finds it missing: the sink of a new player
    is stopped, only a file starts it, and a file once set is never unset.
    After any operations and deliveries that ran without fault on a new
    player, a sink that can report a state has a file, and the [IdleState]
    delivery goes on to start that file's left channel. *)
Theorem idle_slot_finds_file (file0 : option FileSound) (vol0 : qreal)
    (cs : list SingleFilePlayer.Command) e :
  SingleFilePlayer.admissible_run cs (SingleFilePlayer.construct file0 vol0) e = true ->
  forall p' e',
    SingleFilePlayer.run cs (SingleFilePlayer.construct file0 vol0) e = Ok tt p' e' ->
    SingleFilePlayer.enabled p' = true ->
    exists f,
      SingleFilePlayer.file p' = Some f /\
      SingleFilePlayer.deliver IdleState p' e' =
        SingleFilePlayer.setAudioDevice (getSound f Left)
          (SingleFilePlayer.with_audioDevice (QAudioOutput_setState IdleState) p') e'.
Proof.
  intros Hrun p' e' Hok Hen.
  assert (Hnew : SingleFilePlayer.started_from_file
                   (SingleFilePlayer.construct file0 vol0)).
  { intros Hstate. by destruct Hstate. }
  destruct (single_run_started_from_file cs _ e Hnew Hrun) as [_ Hinv].
  rewrite Hok in Hinv. simpl in Hinv.
  unfold SingleFilePlayer.enabled in Hen. apply negb_true_iff in Hen.
  apply bool_decide_eq_false_1 in Hen. destruct (Hinv Hen) as [f Hfile].
  exists f. split; [exact Hfile|].
  unfold SingleFilePlayer.deliver, SingleFilePlayer.onStateChanged, bind, modify, get, deref.
  simpl. by rewrite Hfile.
Qed.

Lemma single_exec_keeps_volume (c : SingleFilePlayer.Command) (v : qreal) :
  SingleFilePlayer.sets_volume c = false ->
  invariant (fun p => volume (SingleFilePlayer.audioDevice p) = v)
    (SingleFilePlayer.exec c).
Proof.
  intros Hc. destruct c as [value|v'| | |st]; try discriminate.
  - simpl; autounfold with sequencer; keep_walking ltac:(simpl; assumption).
  - simpl; autounfold with sequencer; keep_walking ltac:(simpl; assumption).
  - intros p e Hp. simpl. evaluate.
    destruct (decide (state (SingleFilePlayer.audioDevice p) = StoppedState));
      simpl; exact Hp.
  - unfold SingleFilePlayer.exec, SingleFilePlayer.deliver. autounfold with sequencer.
    keep_walking ltac:(simpl; assumption).
Qed.

(** Walk through a handler for the events it appends; [tac] shows that an
    event satisfies the predicate. *)
Ltac walk_trace tac :=
  repeat first
    [ apply (env_relates_bind _ (appends_trans _)); [|intros ?]
    | apply (env_relates_ret _ (appends_refl _))
    | apply (env_relates_get _ (appends_refl _))
    | apply (env_relates_modify _ (appends_refl _))
    | apply (env_relates_deref _ (appends_refl _))
    | apply (env_relates_isOpen _ (appends_refl _))
    | apply env_relates_emit; intros ?; apply appends_record; solve [tac]
    | apply env_relates_invoke; intros ?; apply appends_record; solve [tac]
    | apply env_relates_open_ReadOnly; intros ?;
        [apply appends_record|apply appends_mark_open]; solve [tac]
    | match goal with
      | |- env_relates _ (match ?x with _ => _ end) => destruct x
      end ].

Lemma single_run_env_relates (R : Env -> Env -> Prop)
    (cs : list SingleFilePlayer.Command) :
  (forall e, R e e) ->
  (forall e1 e2 e3, R e1 e2 -> R e2 e3 -> R e1 e3) ->
  (forall c, In c cs -> env_relates R (SingleFilePlayer.exec c)) ->
  env_relates R (SingleFilePlayer.run cs).
Proof.
  intros Hrefl Htrans.
  induction cs as [|c cs IH]; intros Hcs; simpl; [by apply env_relates_ret|].
  apply env_relates_bind; [exact Htrans| |].
  - apply Hcs. by left.
  - intros _. apply IH. intros c' Hc'. apply Hcs. by right.
Qed.

Lemma single_exec_no_setVolume (c : SingleFilePlayer.Command) :
  SingleFilePlayer.sets_volume c = false ->
  env_relates (appends (fun ev => is_setVolume ev = false)) (SingleFilePlayer.exec c).
Proof.
  intros Hc. destruct c as [value|v'| | |st]; try discriminate;
    unfold SingleFilePlayer.exec, SingleFilePlayer.deliver;
    autounfold with sequencer; walk_trace ltac:(simpl; auto).
Qed.

(** X16.  Only [setVolume] reaches the sink's volume.  [start], the restart
    on [IdleState], [stop], [setFileSound] and every notification leave the
    sink's volume as it is and call no [setVolume] on the sink, so
    [getVolume] returns after them what it returned before.  [setVolume]
    passes its argument to the sink as it is: the single-file player adds no
    adjustment. *)
Theorem volume_changed_only_by_setVolume (cs : list SingleFilePlayer.Command) p e :
  forallb (fun c => negb (SingleFilePlayer.sets_volume c)) cs = true ->
  volume (SingleFilePlayer.audioDevice (final_state (SingleFilePlayer.run cs p e))) =
    volume (SingleFilePlayer.audioDevice p) /\
  count is_setVolume (new_events (SingleFilePlayer.run cs) p e) = 0%nat /\
  (forall x p' e',
     bind (SingleFilePlayer.run cs) (fun _ => SingleFilePlayer.getVolume) p e =
       Ok x p' e' ->
     SingleFilePlayer.getVolume p e = Ok x p e) /\
  (forall v,
     new_events (SingleFilePlayer.setVolume v) p e = [Invoke (AudioSetVolume v)]).
Proof.
  intros Hcs.
  assert (Hin : forall c, In c cs -> SingleFilePlayer.sets_volume c = false).
  { intros c Hc. rewrite forallb_forall in Hcs. specialize (Hcs c Hc).
    by apply negb_true_iff in Hcs. }
  assert (Hkept : volume (SingleFilePlayer.audioDevice
                            (final_state (SingleFilePlayer.run cs p e))) =
                  volume (SingleFilePlayer.audioDevice p)).
  { apply (single_run_invariant
             (fun p' => volume (SingleFilePlayer.audioDevice p') =
                          volume (SingleFilePlayer.audioDevice p))); [|reflexivity].
    intros c Hc. apply single_exec_keeps_volume. by apply Hin. }
  split; [exact Hkept|]. split; [|split].
  - apply count_none. apply appends_new_events.
    apply (single_run_env_relates _ cs (appends_refl _) (appends_trans _)).
    intros c Hc. apply single_exec_no_setVolume. by apply Hin.
  - intros x p' e'. unfold bind at 1.
    destruct (SingleFilePlayer.run cs p e) as [[] p1 e1|p1 e1]; [|discriminate].
    simpl in Hkept. unfold SingleFilePlayer.getVolume, bind, get, ret.
    intros Heq. inversion Heq. subst. by rewrite Hkept.
  - intros v. apply new_events_record. reflexivity.
Qed.

Lemma single_deliver_idle_open p e f d :
  SingleFilePlayer.file p = Some f ->
  getSound f Left = Some d ->
  d ∈ opened e ->
  SingleFilePlayer.deliver IdleState p e =
    Ok tt
      (SingleFilePlayer.with_audioDevice (QAudioOutput_start d)
         (SingleFilePlayer.with_audioDevice (QAudioOutput_setState IdleState) p))
      (record (Invoke (AudioStart d)) e).
Proof.
  intros Hfile Hleft Hopen.
  unfold SingleFilePlayer.deliver. evaluate. rewrite Hfile. simpl. rewrite Hleft.
  simpl. by rewrite (bool_decide_eq_true_2 _ Hopen).
Qed.

Lemma single_idle_loop (n : nat) p e f d :
  SingleFilePlayer.file p = Some f ->
  getSound f Left = Some d ->
  d ∈ opened e ->
  state (SingleFilePlayer.audioDevice p) = ActiveState ->
  source (SingleFilePlayer.audioDevice p) = Some d ->
  exists p' e',
    repeat_m n (SingleFilePlayer.deliver IdleState) p e = Ok tt p' e' /\
    trace e' = trace e ++ replicate n (Invoke (AudioStart d)) /\
    SingleFilePlayer.file p' = Some f /\
    state (SingleFilePlayer.audioDevice p') = ActiveState /\
    source (SingleFilePlayer.audioDevice p') = Some d /\
    volume (SingleFilePlayer.audioDevice p') = volume (SingleFilePlayer.audioDevice p).
Proof.
  revert p e. induction n as [|n IH]; intros p e Hfile Hleft Hopen Hstate Hsource.
  - exists p, e. simpl. by rewrite app_nil_r.
  - simpl. unfold bind at 1.
    rewrite (single_deliver_idle_open p e f d Hfile Hleft Hopen).
    destruct (IH (SingleFilePlayer.with_audioDevice (QAudioOutput_start d)
                    (SingleFilePlayer.with_audioDevice
                       (QAudioOutput_setState IdleState) p))
                 (record (Invoke (AudioStart d)) e))
      as (p' & e' & Hrun & Htrace & Hfile' & Hstate' & Hsource' & Hvol');
      try done.
    exists p', e'. split; [exact Hrun|].
    split; [rewrite Htrace; simpl; by rewrite <- app_assoc|].
    split; [exact Hfile'|]. split; [exact Hstate'|]. split; [exact Hsource'|].
    exact Hvol'.
Qed.

(** X17.  The loop.  With a file whose left-channel stream is open or can be
    opened, [start] followed by any number [n] of [IdleState] deliveries
    never faults and starts the same stream [n + 1] times, opening it at most
    once, before the first start; the sink ends active on that stream, at
    the volume it had, and can report again. *)
Theorem idle_loop_restarts_every_time (n : nat) p e f d :
  SingleFilePlayer.file p = Some f ->
  getSound f Left = Some d ->
  d ∈ opened e \/ d ∈ openable e ->
  exists p' e',
    bind SingleFilePlayer.start
      (fun _ => repeat_m n (SingleFilePlayer.deliver IdleState)) p e = Ok tt p' e' /\
    new_events
      (bind SingleFilePlayer.start
         (fun _ => repeat_m n (SingleFilePlayer.deliver IdleState))) p e =
      (if bool_decide (d ∈ opened e) then [] else [Invoke (DeviceOpen d)]) ++
      replicate (Datatypes.S n) (Invoke (AudioStart d)) /\
    count is_start
      (new_events
         (bind SingleFilePlayer.start
            (fun _ => repeat_m n (SingleFilePlayer.deliver IdleState))) p e) =
      Datatypes.S n /\
    state (SingleFilePlayer.audioDevice p') = ActiveState /\
    source (SingleFilePlayer.audioDevice p') = Some d /\
    volume (SingleFilePlayer.audioDevice p') = volume (SingleFilePlayer.audioDevice p) /\
    SingleFilePlayer.file p' = Some f /\
    SingleFilePlayer.enabled p' = true.
Proof.
  intros Hfile Hleft Hstream.
  destruct (single_setAudioDevice_starts p e d Hstream)
    as (e1 & Hstart & Hopen1 & _ & Htrace1).
  assert (Hs : SingleFilePlayer.start p e =
                 Ok tt (SingleFilePlayer.with_audioDevice (QAudioOutput_start d) p) e1).
  { unfold SingleFilePlayer.start, bind, get. by rewrite Hfile, Hleft. }
  destruct (single_idle_loop n
              (SingleFilePlayer.with_audioDevice (QAudioOutput_start d) p) e1 f d)
    as (p' & e' & Hloop & Htrace & Hfile' & Hstate' & Hsource' & Hvol'); try done.
  assert (Hrun : bind SingleFilePlayer.start
                   (fun _ => repeat_m n (SingleFilePlayer.deliver IdleState)) p e =
                 Ok tt p' e').
  { unfold bind at 1. by rewrite Hs. }
  assert (Hnew : new_events
                   (bind SingleFilePlayer.start
                      (fun _ => repeat_m n (SingleFilePlayer.deliver IdleState))) p e =
                 (if bool_decide (d ∈ opened e) then [] else [Invoke (DeviceOpen d)]) ++
                 replicate (Datatypes.S n) (Invoke (AudioStart d))).
  { apply new_events_record. rewrite Hrun. simpl. rewrite Htrace, Htrace1.
    rewrite <- !app_assoc. do 2 f_equal. }
  exists p', e'. split; [exact Hrun|]. split; [exact Hnew|].
  split.
  { rewrite Hnew.
    assert (Hrep : forall k, count is_start (replicate k (Invoke (AudioStart d))) = k).
    { induction k as [|k IHk]; simpl; [done|]. simpl in IHk. by rewrite IHk. }
    destruct (bool_decide (d ∈ opened e)); simpl; by rewrite Hrep. }
  split; [exact Hstate'|]. split; [exact Hsource'|]. split; [exact Hvol'|].
  split; [exact Hfile'|].
  unfold SingleFilePlayer.enabled. by rewrite Hstate'.
Qed.

(** X18.  Null pointers in the single-file player.  [start] checks the file
    and does nothing without one; the [IdleState] arm does not check and
    faults; [setFileSound] faults on a null file and keeps the one it has;
    [start] faults when the file has no left-channel stream.  None of them
    has emitted or called anything by then. *)
Theorem single_player_null_pointers p e :
  (SingleFilePlayer.file p = None ->
     SingleFilePlayer.start p e = Ok tt p e /\
     SingleFilePlayer.onStateChanged IdleState p e = NullDeref p e) /\
  SingleFilePlayer.setFileSound None p e = NullDeref p e /\
  (forall f,
     SingleFilePlayer.file p = Some f -> getSound f Left = None ->
     SingleFilePlayer.start p e = NullDeref p e /\
     SingleFilePlayer.onStateChanged IdleState p e = NullDeref p e).
Proof.
  split; [|split].
  - intros Hnone. split; evaluate; by rewrite Hnone.
  - reflexivity.
  - intros f Hfile Hleft. split; evaluate; rewrite Hfile; simpl; by rewrite Hleft.
Qed.

(** X19.  A left-channel stream that is not open and cannot be opened: both
    [start] and the [IdleState] arm try to open it once, emit the open error
    once and do not start the sink; the player is as it was, its volume
    included. *)
Theorem single_player_open_failure p e f d :
  SingleFilePlayer.file p = Some f ->
  getSound f Left = Some d ->
  d ∉ opened e -> d ∉ openable e ->
  SingleFilePlayer.start p e =
    Ok tt p (record (Emit (errorString SOUND_SAMPLE_OPEN_ERROR))
               (record (Invoke (DeviceOpen d)) e)) /\
  SingleFilePlayer.onStateChanged IdleState p e = SingleFilePlayer.start p e /\
  new_events SingleFilePlayer.start p e =
    [Invoke (DeviceOpen d); Emit (errorString SOUND_SAMPLE_OPEN_ERROR)] /\
  count is_start (new_events SingleFilePlayer.start p e) = 0%nat /\
  count is_sink_call (new_events SingleFilePlayer.start p e) = 0%nat.
Proof.
  intros Hfile Hleft Hclosed Hlocked.
  assert (Hs : SingleFilePlayer.start p e =
                 Ok tt p (record (Emit (errorString SOUND_SAMPLE_OPEN_ERROR))
                            (record (Invoke (DeviceOpen d)) e))).
  { evaluate. rewrite Hfile. simpl. rewrite Hleft. simpl.
    rewrite (bool_decide_eq_false_2 _ Hclosed). simpl.
    by rewrite (bool_decide_eq_false_2 _ Hlocked). }
  assert (Hnew : new_events SingleFilePlayer.start p e =
                   [Invoke (DeviceOpen d); Emit (errorString SOUND_SAMPLE_OPEN_ERROR)]).
  { apply new_events_record. rewrite Hs. simpl. by rewrite <- app_assoc. }
  split; [exact Hs|]. split.
  - rewrite Hs. evaluate. rewrite Hfile. simpl. rewrite Hleft. simpl.
    rewrite (bool_decide_eq_false_2 _ Hclosed). simpl.
    by rewrite (bool_decide_eq_false_2 _ Hlocked).
  - rewrite Hnew. by repeat split.
Qed.




End SingleFileCoverage.

(** * The theorems at concrete inputs *)

Import Sample.

Lemma onStateChanged_follows_state_table_witness :
  SoundPlayer.playlistIter (running_player Left) =
    Some {| pending := [tone2000]; current := Some tone1000 |} /\
  state (SoundPlayer.audioDevice (running_player Left)) = ActiveState /\
  SoundPlayer.onStateChanged ActiveState (running_player Left) env_open1 =
    Ok tt (running_player Left)
      (record (Emit (currentPlaylistElement
         {| frequency := 1000; volumeDb := 20; volumePercent := 40 |})) env_open1).
Proof.
  split; [reflexivity|]. split; [reflexivity|].
  exact (onStateChanged_follows_state_table (running_player Left) env_open1
           {| pending := [tone2000]; current := Some tone1000 |} ActiveState
           eq_refl eq_refl).
Defined.

Lemma playNextSample_advances_or_ends_witness :
  SoundPlayer.playlistIter (running_player Left) =
    Some {| pending := [tone2000]; current := Some tone1000 |} /\
  PlaylistIter.hasNext {| pending := [tone2000]; current := Some tone1000 |} = true /\
  SoundPlayer.fetch Left {| pending := [tone2000]; current := Some tone1000 |} =
    Some ((Some 3%nat, 55), {| pending := []; current := Some tone2000 |}, IterNextLeft) /\
  (3%nat ∈ opened env0 \/ 3%nat ∈ openable env0) /\
  exists sp' e',
    SoundPlayer.playNextSample (running_player Left) env0 = Ok tt sp' e' /\
    trace e' =
      [Emit aboutToPlayNextElement; Invoke IterNextLeft; Invoke (AudioSetVolume 60);
       Invoke (DeviceOpen 3%nat); Invoke (AudioStart 3%nat)].
Proof.
  set (it := {| pending := [tone2000]; current := Some tone1000 |}).
  set (it' := {| pending := []; current := Some tone2000 |}).
  assert (Hcan : 3%nat ∈ opened env0 \/ 3%nat ∈ openable env0).
  { right. simpl. set_solver. }
  assert (Hit : SoundPlayer.playlistIter (running_player Left) = Some it)
    by reflexivity.
  assert (Hnext : PlaylistIter.hasNext it = true) by reflexivity.
  assert (Hfetch : SoundPlayer.fetch Left it = Some ((Some 3%nat, 55), it', IterNextLeft))
    by reflexivity.
  split; [exact Hit|]. split; [exact Hnext|]. split; [exact Hfetch|].
  split; [exact Hcan|].
  destruct (playNextSample_advances_or_ends (running_player Left) env0 it Hit)
    as [_ Hadvance].
  destruct (Hadvance Hnext (Some 3%nat) 55 it' IterNextLeft Hfetch) as [_ Hstart].
  destruct (Hstart 3%nat eq_refl Hcan) as (sp' & e' & Hrun & _ & _ & _ & Htrace).
  exists sp', e'. split; [exact Hrun|]. rewrite Htrace. reflexivity.
Defined.

Lemma playPlaylist_empty_playlist_witness :
  SoundPlayer.playlist (idle_player [] Left) = Some {| iterator := fresh [] |} /\
  PlaylistIter.hasNext (fresh []) = false /\
  new_events (SoundPlayer.playPlaylist Right) (idle_player [] Left) env0 =
    [Emit (errorString PLAYLIST_ERROR)] /\
  count is_sink_call
    (new_events (SoundPlayer.playPlaylist Right) (idle_player [] Left) env0) = 0%nat.
Proof.
  assert (Hpl : SoundPlayer.playlist (idle_player [] Left) =
                  Some {| iterator := fresh [] |}) by reflexivity.
  assert (Hempty : PlaylistIter.hasNext (fresh []) = false) by reflexivity.
  split; [exact Hpl|]. split; [exact Hempty|].
  destruct (playPlaylist_empty_playlist (idle_player [] Left) env0
              {| iterator := fresh [] |} Right Hpl Hempty)
    as (_ & Hnew & _ & _ & Hsink).
  split; [exact Hnew|exact Hsink].
Defined.

(** C3 as it is worded fails: on an empty playlist [playPlaylist Right]
    changes the sequencer's recorded channel and its iterator handle. *)
Lemma playPlaylist_empty_playlist_mutates_state :
  PlaylistIter.hasNext (fresh []) = false /\
  faulted (SoundPlayer.playPlaylist Right (idle_player [] Left) env0) = false /\
  SoundPlayer.currentChannel (idle_player [] Left) = Left /\
  SoundPlayer.currentChannel
    (final_state (SoundPlayer.playPlaylist Right (idle_player [] Left) env0)) = Right /\
  SoundPlayer.playlistIter (idle_player [] Left) = None /\
  SoundPlayer.playlistIter
    (final_state (SoundPlayer.playPlaylist Right (idle_player [] Left) env0)) =
    Some (fresh []) /\
  final_state (SoundPlayer.playPlaylist Right (idle_player [] Left) env0) <>
    idle_player [] Left.
Proof.
  repeat split. intros Heq.
  apply (f_equal SoundPlayer.currentChannel) in Heq. discriminate Heq.
Qed.

Lemma setAudioDevice_start_attempt_witness :
  (1%nat ∉ opened env_locked) /\ (1%nat ∉ openable env_locked) /\
  new_events (SoundPlayer.setAudioDevice (Some 1%nat) 40)
    (running_player Left) env_locked =
    [Invoke (AudioSetVolume 45); Invoke (DeviceOpen 1%nat);
     Emit (errorString SOUND_SAMPLE_OPEN_ERROR)] /\
  (1%nat ∈ opened env_open1) /\
  new_events (SoundPlayer.setAudioDevice (Some 1%nat) 40)
    (running_player Left) env_open1 =
    [Invoke (AudioSetVolume 45); Invoke (AudioStart 1%nat)].
Proof.
  set (sp := running_player Left).
  assert (Hclosed : 1%nat ∉ opened env_locked) by (simpl; set_solver).
  assert (Hlocked : 1%nat ∉ openable env_locked) by (simpl; set_solver).
  assert (Hopen : 1%nat ∈ opened env_open1) by (simpl; set_solver).
  split; [exact Hclosed|]. split; [exact Hlocked|].
  split.
  - exact (proj1 (proj1 (proj2 (setAudioDevice_start_attempt sp env_locked 1%nat 40))
                    Hclosed Hlocked)).
  - split; [exact Hopen|].
    exact (proj1 (proj2 (proj2 (proj2
             (setAudioDevice_start_attempt sp env_open1 1%nat 40))) Hopen)).
Defined.

Lemma setAudioDevice_failure_keeps_volume_change_witness :
  (1%nat ∉ opened env_locked) /\ (1%nat ∉ openable env_locked) /\
  exists sp' e',
    SoundPlayer.setAudioDevice (Some 1%nat) 40 (idle_player [tone1000] Left) env_locked =
      Ok tt sp' e' /\
    volume (SoundPlayer.audioDevice sp') = 45 /\
    trace e' =
      [Invoke (AudioSetVolume 45); Invoke (DeviceOpen 1%nat);
       Emit (errorString SOUND_SAMPLE_OPEN_ERROR)].
Proof.
  assert (Hclosed : 1%nat ∉ opened env_locked) by (simpl; set_solver).
  assert (Hlocked : 1%nat ∉ openable env_locked) by (simpl; set_solver).
  split; [exact Hclosed|]. split; [exact Hlocked|].
  exact (setAudioDevice_failure_keeps_volume_change
           (idle_player [tone1000] Left) env_locked 1%nat 40 Hclosed Hlocked).
Defined.

Lemma volume_adjustment_on_start_not_in_report_witness :
  forallb (fun c : SoundPlayer.Command ListIter => negb (SoundPlayer.adjusts_volume c))
    [SoundPlayer.SetNoSoundTimeSpanMs 50; SoundPlayer.PlayPlaylist Left;
     SoundPlayer.Deliver (SoundPlayer.StateChanged ActiveState)] = true /\
  faulted
    (SoundPlayer.run
       [SoundPlayer.SetCorrectionAdjustVolume 7; SoundPlayer.SetNoSoundTimeSpanMs 50;
        SoundPlayer.PlayPlaylist Left;
        SoundPlayer.Deliver (SoundPlayer.StateChanged ActiveState)]
       (idle_player [tone1000; tone2000] Left) env0) = false /\
  SoundPlayer.volumeAdjust
    (final_state
       (SoundPlayer.run
          [SoundPlayer.SetCorrectionAdjustVolume 7; SoundPlayer.SetNoSoundTimeSpanMs 50;
           SoundPlayer.PlayPlaylist Left;
           SoundPlayer.Deliver (SoundPlayer.StateChanged ActiveState)]
          (idle_player [tone1000; tone2000] Left) env0)) = 7.
Proof.
  set (cs := [SoundPlayer.SetNoSoundTimeSpanMs 50; SoundPlayer.PlayPlaylist Left;
              SoundPlayer.Deliver (SoundPlayer.StateChanged ActiveState)]).
  set (after := SoundPlayer.run
                  (@SoundPlayer.SetCorrectionAdjustVolume PercentReal ListIter 7 :: cs)
                  (idle_player [tone1000; tone2000] Left) env0).
  assert (Hcs : forallb (fun c : SoundPlayer.Command ListIter => negb (SoundPlayer.adjusts_volume c)) cs = true)
    by reflexivity.
  assert (Hrun : after = Ok tt (final_state after) (final_env after))
    by (vm_compute; reflexivity).
  split; [exact Hcs|]. split; [by rewrite Hrun|].
  exact (proj1 (volume_adjustment_on_start_not_in_report 7 cs
                  (idle_player [tone1000; tone2000] Left) env0
                  (final_state after) (final_env after) Hcs Hrun)).
Defined.

Lemma stopPlaylist_safe_after_run_started_witness :
  faulted
    (SoundPlayer.run
       [SoundPlayer.PlayPlaylist Left;
        SoundPlayer.Deliver (SoundPlayer.StateChanged IdleState)]
       (idle_player [tone1000] Left) env0) = false /\
  faulted
    (SoundPlayer.stopPlaylist
       (final_state
          (SoundPlayer.run
             [SoundPlayer.PlayPlaylist Left;
              SoundPlayer.Deliver (SoundPlayer.StateChanged IdleState)]
             (idle_player [tone1000] Left) env0))
       (final_env
          (SoundPlayer.run
             [SoundPlayer.PlayPlaylist Left;
              SoundPlayer.Deliver (SoundPlayer.StateChanged IdleState)]
             (idle_player [tone1000] Left) env0))) = false.
Proof.
  set (after := SoundPlayer.run
                  [SoundPlayer.PlayPlaylist Left;
                   SoundPlayer.Deliver (SoundPlayer.StateChanged IdleState)]
                  (idle_player [tone1000] Left) env0).
  assert (Hrun : after = Ok tt (final_state after) (final_env after))
    by (vm_compute; reflexivity).
  split; [by rewrite Hrun|].
  destruct (stopPlaylist_safe_after_run_started Left
              [SoundPlayer.Deliver (SoundPlayer.StateChanged IdleState)]
              (idle_player [tone1000] Left) env0
              (final_state after) (final_env after) Hrun)
    as (it & sp1 & e1 & sp2 & e2 & _ & Hstop & _).
  by rewrite Hstop.
Defined.

Lemma stopPlaylist_while_active_quiesces_witness :
  SoundPlayer.playlistIter (running_player Left) =
    Some {| pending := [tone2000]; current := Some tone1000 |} /\
  state (SoundPlayer.audioDevice (running_player Left)) = ActiveState /\
  exists sp' e',
    SoundPlayer.stopPlaylist (running_player Left) env_open1 = Ok tt sp' e' /\
    trace e' = [Invoke AudioStop; Invoke TimerStart; Invoke TimerStop; Invoke IterStop] /\
    forall stim, SoundPlayer.enabled stim sp' = false.
Proof.
  assert (Hit : SoundPlayer.playlistIter (running_player Left) =
                  Some {| pending := [tone2000]; current := Some tone1000 |})
    by reflexivity.
  assert (Hactive : state (SoundPlayer.audioDevice (running_player Left)) = ActiveState)
    by reflexivity.
  split; [exact Hit|]. split; [exact Hactive|].
  destruct (stopPlaylist_while_active_quiesces (running_player Left) env_open1 _
              Hit Hactive)
    as (sp' & e' & Hstop & Htrace & _ & _ & Hquiet & _).
  exists sp', e'. split; [exact Hstop|]. split; [exact Htrace|exact Hquiet].
Defined.

Lemma unrecognised_channel_no_errorString_witness :
  SoundPlayer.playlistIter (running_player OtherDirection) =
    Some {| pending := [tone2000]; current := Some tone1000 |} /\
  PlaylistIter.hasNext {| pending := [tone2000]; current := Some tone1000 |} = true /\
  SoundPlayer.currentChannel (running_player OtherDirection) = OtherDirection /\
  SoundPlayer.playlist (running_player OtherDirection) =
    Some {| iterator := fresh [tone1000; tone2000] |} /\
  PlaylistIter.hasNext (fresh [tone1000; tone2000]) = true /\
  faulted (SoundPlayer.playPlaylist OtherDirection
             (running_player OtherDirection) env0) = true /\
  new_events (SoundPlayer.playPlaylist OtherDirection)
    (running_player OtherDirection) env0 = [Invoke (AudioSetVolume 5)] /\
  count (is_error DIRECTION_ERROR)
    (new_events (SoundPlayer.playPlaylist OtherDirection)
       (running_player OtherDirection) env0) = 0%nat.
Proof.
  assert (Hit : SoundPlayer.playlistIter (running_player OtherDirection) =
                  Some {| pending := [tone2000]; current := Some tone1000 |})
    by reflexivity.
  assert (Hnext : PlaylistIter.hasNext
                    {| pending := [tone2000]; current := Some tone1000 |} = true)
    by reflexivity.
  assert (Hch : SoundPlayer.currentChannel (running_player OtherDirection) =
                  OtherDirection) by reflexivity.
  assert (Hpl : SoundPlayer.playlist (running_player OtherDirection) =
                  Some {| iterator := fresh [tone1000; tone2000] |}) by reflexivity.
  assert (Hplnext : PlaylistIter.hasNext (fresh [tone1000; tone2000]) = true)
    by reflexivity.
  split; [exact Hit|]. split; [exact Hnext|]. split; [exact Hch|].
  split; [exact Hpl|]. split; [exact Hplnext|].
  destruct (unrecognised_channel_no_errorString (running_player OtherDirection) env0
              _ _ Hit Hnext Hch Hpl Hplnext)
    as (_ & _ & Hfault & Hnew & Hcount).
  split; [exact Hfault|]. split; [exact Hnew|].
  exact (proj2 (Hcount DIRECTION_ERROR)).
Defined.

(** A whole run on the left channel of a two-entry playlist: each stimulus
    can be delivered when its turn comes, and the trace is the one the
    handlers produce step by step. *)
Example two_entry_run :
  SoundPlayer.deliverable
    [SoundPlayer.StateChanged ActiveState; SoundPlayer.StateChanged IdleState;
     SoundPlayer.Timeout;
     SoundPlayer.StateChanged ActiveState; SoundPlayer.StateChanged IdleState;
     SoundPlayer.Timeout]
    (final_state (SoundPlayer.playPlaylist Left
                    (idle_player [tone1000; tone2000] Left) env0))
    (final_env (SoundPlayer.playPlaylist Left
                  (idle_player [tone1000; tone2000] Left) env0)) = true /\
  trace (final_env
    (SoundPlayer.run
       [SoundPlayer.PlayPlaylist Left;
        SoundPlayer.Deliver (SoundPlayer.StateChanged ActiveState);
        SoundPlayer.Deliver (SoundPlayer.StateChanged IdleState);
        SoundPlayer.Deliver SoundPlayer.Timeout;
        SoundPlayer.Deliver (SoundPlayer.StateChanged ActiveState);
        SoundPlayer.Deliver (SoundPlayer.StateChanged IdleState);
        SoundPlayer.Deliver SoundPlayer.Timeout]
       (idle_player [tone1000; tone2000] Left) env0)) =
    [Invoke IterNextLeft; Invoke (AudioSetVolume 45); Invoke (DeviceOpen 1%nat);
     Invoke (AudioStart 1%nat);
     Emit (currentPlaylistElement
             {| frequency := 1000; volumeDb := 20; volumePercent := 40 |});
     Invoke AudioStop; Invoke TimerStart; Emit stopPlaying;
     Emit aboutToPlayNextElement;
     Invoke IterNextLeft; Invoke (AudioSetVolume 60); Invoke (DeviceOpen 3%nat);
     Invoke (AudioStart 3%nat);
     Emit (currentPlaylistElement
             {| frequency := 2000; volumeDb := 30; volumePercent := 55 |});
     Invoke AudioStop; Invoke TimerStart; Emit stopPlaying;
     Emit aboutToPlayNextElement; Emit playlistEnded].
Proof. split; vm_compute; reflexivity. Qed.

(** * The further properties at concrete inputs *)

Lemma stopPlaylist_without_iterator_witness :
  SoundPlayer.playlistIter (idle_player [tone1000] Left) = None /\
  faulted (SoundPlayer.stopPlaylist (idle_player [tone1000] Left) env0) = true /\
  new_events SoundPlayer.stopPlaylist (idle_player [tone1000] Left) env0 =
    [Invoke AudioStop; Invoke TimerStop].
Proof.
  assert (Hnone : SoundPlayer.playlistIter (idle_player [tone1000] Left) = None)
    by reflexivity.
  split; [exact Hnone|].
  destruct (stopPlaylist_without_iterator (idle_player [tone1000] Left) env0 Hnone)
    as (Hfault & _ & _ & Hnew & _).
  split; [exact Hfault|exact Hnew].
Defined.

Lemma handlers_without_iterator_witness :
  SoundPlayer.playlistIter (idle_player [tone1000] Left) = None /\
  SoundPlayer.playNextSample (idle_player [tone1000] Left) env0 =
    NullDeref (idle_player [tone1000] Left) (record (Emit aboutToPlayNextElement) env0).
Proof.
  assert (Hnone : SoundPlayer.playlistIter (idle_player [tone1000] Left) = None)
    by reflexivity.
  split; [exact Hnone|].
  exact (proj2 (proj2 (handlers_without_iterator (idle_player [tone1000] Left) env0 Hnone))).
Defined.

Lemma playPlaylist_without_playlist_witness :
  SoundPlayer.playlist (SoundPlayer.with_playlist None (running_player Left)) = None /\
  new_events (SoundPlayer.playPlaylist Right)
    (SoundPlayer.with_playlist None (running_player Left)) env0 = [] /\
  SoundPlayer.currentChannel
    (final_state (SoundPlayer.playPlaylist Right
                    (SoundPlayer.with_playlist None (running_player Left)) env0)) = Left.
Proof.
  assert (Hnone : SoundPlayer.playlist
                    (SoundPlayer.with_playlist None (running_player Left)) = None)
    by reflexivity.
  split; [exact Hnone|].
  destruct (playPlaylist_without_playlist
              (SoundPlayer.with_playlist None (running_player Left)) env0 Right Hnone)
    as (_ & Hch & Hnew).
  split; [exact Hnew|exact Hch].
Defined.

Lemma playPlaylist_forgets_previous_run_witness :
  SoundPlayer.playlist (idle_player [tone1000; tone2000] Left) =
    Some {| iterator := fresh [tone1000; tone2000] |} /\
  SoundPlayer.playPlaylist Right
    (SoundPlayer.with_currentChannel Left
       (SoundPlayer.with_playlistIter
          (Some {| pending := [tone2000]; current := Some tone1000 |})
          (idle_player [tone1000; tone2000] Left))) env0 =
    SoundPlayer.playPlaylist Right (idle_player [tone1000; tone2000] Left) env0.
Proof.
  assert (Hpl : SoundPlayer.playlist (idle_player [tone1000; tone2000] Left) =
                  Some {| iterator := fresh [tone1000; tone2000] |}) by reflexivity.
  split; [exact Hpl|].
  exact (playPlaylist_forgets_previous_run
           (idle_player [tone1000; tone2000] Left) env0
           {| iterator := fresh [tone1000; tone2000] |} Right
           (Some {| pending := [tone2000]; current := Some tone1000 |}) Left Hpl).
Defined.

Lemma playPlaylist_starts_first_entry_witness :
  SoundPlayer.playlist (idle_player [tone1000; tone2000] Left) =
    Some {| iterator := fresh [tone1000; tone2000] |} /\
  PlaylistIter.hasNext (fresh [tone1000; tone2000]) = true /\
  SoundPlayer.fetch Right (fresh [tone1000; tone2000]) =
    Some ((Some 2%nat, 40), {| pending := [tone2000]; current := Some tone1000 |},
          IterNextRight) /\
  (2%nat ∈ opened env0 \/ 2%nat ∈ openable env0) /\
  new_events (SoundPlayer.playPlaylist Right)
    (idle_player [tone1000; tone2000] Left) env0 =
    [Invoke IterNextRight; Invoke (AudioSetVolume 45); Invoke (DeviceOpen 2%nat);
     Invoke (AudioStart 2%nat)].
Proof.
  assert (Hpl : SoundPlayer.playlist (idle_player [tone1000; tone2000] Left) =
                  Some {| iterator := fresh [tone1000; tone2000] |}) by reflexivity.
  assert (Hnext : PlaylistIter.hasNext (fresh [tone1000; tone2000]) = true)
    by reflexivity.
  assert (Hfetch : SoundPlayer.fetch Right (fresh [tone1000; tone2000]) =
            Some ((Some 2%nat, 40), {| pending := [tone2000]; current := Some tone1000 |},
                  IterNextRight)) by reflexivity.
  assert (Hcan : 2%nat ∈ opened env0 \/ 2%nat ∈ openable env0).
  { right. simpl. set_solver. }
  split; [exact Hpl|]. split; [exact Hnext|]. split; [exact Hfetch|].
  split; [exact Hcan|].
  destruct (playPlaylist_starts_first_entry (idle_player [tone1000; tone2000] Left) env0
              _ Right 2%nat 40 _ IterNextRight Hpl Hnext Hfetch Hcan)
    as (sp' & e' & _ & Hnew & _).
  rewrite Hnew. reflexivity.
Defined.

Lemma streams_stay_open_witness :
  1%nat ∈ opened env_open1 /\
  new_events (SoundPlayer.setAudioDevice (Some 1%nat) 40) (running_player Left)
    (final_env
       (SoundPlayer.run
          [SoundPlayer.StopPlaylist; SoundPlayer.PlayPlaylist Right]
          (running_player Left) env_open1)) =
    [Invoke (AudioSetVolume 45); Invoke (AudioStart 1%nat)].
Proof.
  assert (Hopen : 1%nat ∈ opened env_open1) by (simpl; set_solver).
  split; [exact Hopen|].
  exact (proj2 (streams_stay_open
                  [SoundPlayer.StopPlaylist; SoundPlayer.PlayPlaylist Right]
                  (running_player Left) env_open1)
           1%nat 40 (running_player Left) Hopen).
Defined.

Lemma gap_timer_untouched_witness :
  SoundPlayer.touches_timer
    (SoundPlayer.PlayPlaylist Left : SoundPlayer.Command ListIter) = false /\
  SoundPlayer.timeGapTimer
    (final_state
       (SoundPlayer.playPlaylist Left
          (SoundPlayer.with_timeGapTimer QTimer_start (idle_player [tone1000] Left))
          env0)) =
    {| interval := 1000; active := true |}.
Proof.
  split; [reflexivity|].
  exact (proj1 (gap_timer_untouched (SoundPlayer.PlayPlaylist Left)
                  (SoundPlayer.with_timeGapTimer QTimer_start
                     (idle_player [tone1000] Left)) env0 eq_refl)).
Defined.

Lemma sink_untouched_witness :
  SoundPlayer.involves_sink
    (SoundPlayer.SetCorrectionAdjustVolume 9 : SoundPlayer.Command ListIter) = false /\
  SoundPlayer.audioDevice
    (final_state (SoundPlayer.setCorrectionAdjustVolume 9 (running_player Left) env_open1)) =
    playing_sink.
Proof.
  split; [reflexivity|].
  exact (proj1 (sink_untouched
                  (SoundPlayer.SetCorrectionAdjustVolume 9 : SoundPlayer.Command ListIter)
                  (running_player Left) env_open1 eq_refl)).
Defined.

Lemma timeout_at_end_of_playlist_witness :
  state (SoundPlayer.audioDevice
           (SoundPlayer.with_playlistIter (Some (fresh [])) (idle_player [] Left))) =
    StoppedState /\
  SoundPlayer.playlistIter
    (SoundPlayer.with_playlistIter (Some (fresh [])) (idle_player [] Left)) =
    Some (fresh []) /\
  PlaylistIter.hasNext (fresh []) = false /\
  new_events (SoundPlayer.deliver SoundPlayer.Timeout)
    (SoundPlayer.with_playlistIter (Some (fresh [])) (idle_player [] Left)) env0 =
    [Emit aboutToPlayNextElement; Emit playlistEnded].
Proof.
  set (sp := SoundPlayer.with_playlistIter (Some (fresh [])) (idle_player [] Left)).
  assert (Hstopped : state (SoundPlayer.audioDevice sp) = StoppedState) by reflexivity.
  assert (Hit : SoundPlayer.playlistIter sp = Some (fresh [])) by reflexivity.
  assert (Hend : PlaylistIter.hasNext (fresh []) = false) by reflexivity.
  split; [exact Hstopped|]. split; [exact Hit|]. split; [exact Hend|].
  destruct (timeout_at_end_of_playlist sp env0 (fresh []) Hstopped Hit Hend)
    as (sp' & e' & _ & Hnew & _).
  exact Hnew.
Defined.

Lemma timeout_with_unopenable_stream_witness :
  state (SoundPlayer.audioDevice
           (SoundPlayer.with_playlistIter (Some (fresh [tone1000]))
              (idle_player [tone1000] Left))) = StoppedState /\
  SoundPlayer.playlistIter
    (SoundPlayer.with_playlistIter (Some (fresh [tone1000]))
       (idle_player [tone1000] Left)) = Some (fresh [tone1000]) /\
  PlaylistIter.hasNext (fresh [tone1000]) = true /\
  SoundPlayer.fetch Left (fresh [tone1000]) =
    Some ((Some 1%nat, 40), {| pending := []; current := Some tone1000 |},
          IterNextLeft) /\
  (1%nat ∉ opened env_locked) /\ (1%nat ∉ openable env_locked) /\
  new_events (SoundPlayer.deliver SoundPlayer.Timeout)
    (SoundPlayer.with_playlistIter (Some (fresh [tone1000]))
       (idle_player [tone1000] Left)) env_locked =
    [Emit aboutToPlayNextElement; Invoke IterNextLeft; Invoke (AudioSetVolume 45);
     Invoke (DeviceOpen 1%nat); Emit (errorString SOUND_SAMPLE_OPEN_ERROR)].
Proof.
  set (sp := SoundPlayer.with_playlistIter (Some (fresh [tone1000]))
               (idle_player [tone1000] Left)).
  assert (Hstopped : state (SoundPlayer.audioDevice sp) = StoppedState) by reflexivity.
  assert (Hit : SoundPlayer.playlistIter sp = Some (fresh [tone1000])) by reflexivity.
  assert (Hnext : PlaylistIter.hasNext (fresh [tone1000]) = true) by reflexivity.
  assert (Hfetch : SoundPlayer.fetch (SoundPlayer.currentChannel sp) (fresh [tone1000]) =
            Some ((Some 1%nat, 40), {| pending := []; current := Some tone1000 |},
                  IterNextLeft)) by reflexivity.
  assert (Hclosed : 1%nat ∉ opened env_locked) by (simpl; set_solver).
  assert (Hlocked : 1%nat ∉ openable env_locked) by (simpl; set_solver).
  split; [exact Hstopped|]. split; [exact Hit|]. split; [exact Hnext|].
  split; [exact Hfetch|]. split; [exact Hclosed|]. split; [exact Hlocked|].
  destruct (timeout_with_unopenable_stream sp env_locked (fresh [tone1000]) 1%nat 40
              _ IterNextLeft Hstopped Hit Hnext Hfetch Hclosed Hlocked)
    as (sp' & e' & _ & Hnew & _).
  exact Hnew.
Defined.

Lemma file_always_has_left_channel_witness :
  SingleFilePlayer.file_has_left calibration_player /\
  SingleFilePlayer.file_has_left
    (final_state
       (SingleFilePlayer.run
          [SingleFilePlayer.SetFileSound
             (Some {| getLeftSoundUrl := ""; getSound := fun _ => Some 3%nat |});
           SingleFilePlayer.Start]
          calibration_player env0)).
Proof.
  assert (Hleft : SingleFilePlayer.file_has_left calibration_player) by done.
  split; [exact Hleft|].
  exact (proj1 (file_always_has_left_channel
                  [SingleFilePlayer.SetFileSound
                     (Some {| getLeftSoundUrl := ""; getSound := fun _ => Some 3%nat |});
                   SingleFilePlayer.Start]
                  calibration_player env0 Hleft)).
Defined.

Lemma idle_slot_finds_file_witness :
  SingleFilePlayer.admissible_run
    [SingleFilePlayer.SetFileSound (Some calibration_file); SingleFilePlayer.Start;
     SingleFilePlayer.Deliver ActiveState]
    (@SingleFilePlayer.construct PercentReal None 100) env0 = true /\
  exists f,
    SingleFilePlayer.file
      (final_state
         (SingleFilePlayer.run
            [SingleFilePlayer.SetFileSound (Some calibration_file);
             SingleFilePlayer.Start; SingleFilePlayer.Deliver ActiveState]
            (@SingleFilePlayer.construct PercentReal None 100) env0)) = Some f.
Proof.
  set (cs := [SingleFilePlayer.SetFileSound (Some calibration_file);
              SingleFilePlayer.Start; SingleFilePlayer.Deliver ActiveState]).
  set (after := SingleFilePlayer.run cs (@SingleFilePlayer.construct PercentReal None 100) env0).
  assert (Hadm : SingleFilePlayer.admissible_run cs
                   (@SingleFilePlayer.construct PercentReal None 100) env0 = true)
    by (vm_compute; reflexivity).
  assert (Hrun : after = Ok tt (final_state after) (final_env after))
    by (vm_compute; reflexivity).
  assert (Hen : SingleFilePlayer.enabled (final_state after) = true)
    by (vm_compute; reflexivity).
  split; [exact Hadm|].
  destruct (@idle_slot_finds_file PercentReal None 100 cs env0 Hadm
              (final_state after) (final_env after) Hrun Hen) as (f & Hfile & _).
  exists f. exact Hfile.
Defined.

Lemma idle_loop_restarts_every_time_witness :
  SingleFilePlayer.file calibration_player = Some calibration_file /\
  getSound calibration_file Left = Some 1%nat /\
  (1%nat ∈ opened env0 \/ 1%nat ∈ openable env0) /\
  new_events
    (bind SingleFilePlayer.start
       (fun _ => repeat_m 3 (SingleFilePlayer.deliver IdleState)))
    calibration_player env0 =
    [Invoke (DeviceOpen 1%nat); Invoke (AudioStart 1%nat); Invoke (AudioStart 1%nat);
     Invoke (AudioStart 1%nat); Invoke (AudioStart 1%nat)].
Proof.
  assert (Hcan : 1%nat ∈ opened env0 \/ 1%nat ∈ openable env0).
  { right. simpl. set_solver. }
  split; [reflexivity|]. split; [reflexivity|]. split; [exact Hcan|].
  destruct (idle_loop_restarts_every_time 3 calibration_player env0 calibration_file
              1%nat eq_refl eq_refl Hcan) as (p' & e' & _ & Hnew & _).
  rewrite Hnew. reflexivity.
Defined.

Lemma single_player_null_pointers_witness :
  SingleFilePlayer.file (@SingleFilePlayer.construct PercentReal None 100) = None /\
  SingleFilePlayer.start (@SingleFilePlayer.construct PercentReal None 100) env0 =
    Ok tt (@SingleFilePlayer.construct PercentReal None 100) env0 /\
  SingleFilePlayer.onStateChanged IdleState (@SingleFilePlayer.construct PercentReal None 100) env0 =
    NullDeref (@SingleFilePlayer.construct PercentReal None 100) env0.
Proof.
  split; [reflexivity|].
  exact (proj1 (single_player_null_pointers (@SingleFilePlayer.construct PercentReal None 100) env0)
           eq_refl).
Defined.

Lemma single_player_open_failure_witness :
  SingleFilePlayer.file calibration_player = Some calibration_file /\
  getSound calibration_file Left = Some 1%nat /\
  (1%nat ∉ opened env_locked) /\ (1%nat ∉ openable env_locked) /\
  new_events SingleFilePlayer.start calibration_player env_locked =
    [Invoke (DeviceOpen 1%nat); Emit (errorString SOUND_SAMPLE_OPEN_ERROR)].
Proof.
  assert (Hclosed : 1%nat ∉ opened env_locked) by (simpl; set_solver).
  assert (Hlocked : 1%nat ∉ openable env_locked) by (simpl; set_solver).
  split; [reflexivity|]. split; [reflexivity|].
  split; [exact Hclosed|]. split; [exact Hlocked|].
  destruct (single_player_open_failure calibration_player env_locked calibration_file
              1%nat eq_refl eq_refl Hclosed Hlocked) as (_ & _ & Hnew & _).
  exact Hnew.
Defined.

Lemma volume_changed_only_by_setVolume_witness :
  forallb (fun c => negb (SingleFilePlayer.sets_volume c))
    [SingleFilePlayer.Start; SingleFilePlayer.Deliver IdleState;
     SingleFilePlayer.Stop] = true /\
  volume (SingleFilePlayer.audioDevice
            (final_state
               (SingleFilePlayer.run
                  [SingleFilePlayer.Start; SingleFilePlayer.Deliver IdleState;
                   SingleFilePlayer.Stop]
                  new_calibration_player env0))) = 1 /\
  count is_setVolume
    (new_events
       (SingleFilePlayer.run
          [SingleFilePlayer.Start; SingleFilePlayer.Deliver IdleState;
           SingleFilePlayer.Stop])
       new_calibration_player env0) = 0%nat.
Proof.
  assert (Hcs : forallb (fun c => negb (SingleFilePlayer.sets_volume c))
                  [SingleFilePlayer.Start; SingleFilePlayer.Deliver IdleState;
                   SingleFilePlayer.Stop] = true) by reflexivity.
  split; [exact Hcs|].
  destruct (volume_changed_only_by_setVolume
              [SingleFilePlayer.Start; SingleFilePlayer.Deliver IdleState;
               SingleFilePlayer.Stop]
              new_calibration_player env0 Hcs) as (Hkept & Hnone & _).
  split; [exact Hkept|exact Hnone].
Defined.

